(** * skslc: the SkSL command-line driver (src/sksl/SkSLMain.cpp)

    A shallow embedding of the batch driver [main], the per-job runner
    [processCommand], the [#pragma settings] parser
    [detect_shader_settings] and the helper [base_name], followed by the
    properties of the driver that the specification states. *)

From Stdlib Require Import String Ascii List Bool Arith Lia ZArith DecimalString Permutation.
Import ListNotations.

Local Open Scope list_scope.
Local Open Scope string_scope.

Abbreviation slen := String.length.

(** ** Result codes *)

(** [enum class ResultCode], with the numeric value of each enumerator. *)
Inductive ResultCode : Type :=
| kSuccess
| kCompileError
| kInputError
| kOutputError.

Definition code (r : ResultCode) : Z :=
  match r with
  | kSuccess => 0
  | kCompileError => 1
  | kInputError => 2
  | kOutputError => 3
  end.

(** [std::max(a, b)] is [(a < b) ? b : a]; on a scoped enumeration [<]
    compares the underlying values. *)
Definition max_code (a b : ResultCode) : ResultCode :=
  if (code a <? code b)%Z then b else a.

(** ** C strings and [SkSL::String] *)

Definition NUL : ascii := "000"%char.

(** The line feed that ends a printed line. *)
Definition LF : string := String "010"%char EmptyString.

(** [s.c_str()] seen through the C string functions: the characters up to
    the first NUL. *)
Fixpoint c_str (s : string) : string :=
  match s with
  | EmptyString => EmptyString
  | String c r => if Ascii.eqb c NUL then EmptyString else String c (c_str r)
  end.

(** [strncmp(s, p, strlen(p)) == 0]. *)
Fixpoint starts_with (s p : string) {struct p} : bool :=
  match p with
  | EmptyString => true
  | String a p' =>
      match s with
      | EmptyString => false
      | String b s' => Ascii.eqb b a && starts_with s' p'
      end
  end.

(** [strstr(haystack, needle)]: the tail of [haystack] that starts at the
    first occurrence of [needle], [None] for the null pointer. *)
Fixpoint strstr (haystack needle : string) {struct haystack} : option string :=
  if starts_with haystack needle then Some haystack
  else match haystack with
       | EmptyString => None
       | String _ h => strstr h needle
       end.

(** [p + n] on a pointer into a string. *)
Fixpoint advance (n : nat) (p : string) : string :=
  match n, p with
  | S n', String _ p' => advance n' p'
  | _, _ => p
  end.

(** Modelled from the spec: [SkSL::String::endsWith] (SkSLString.cpp is not
    among the sources): whether the text ends with the given suffix. *)
Definition endsWith (s suffix : string) : bool :=
  (slen suffix <=? slen s)%nat &&
  (substring (slen s - slen suffix) (slen suffix) s =? suffix).

(** Modelled from the spec: [SkSL::String::consumeSuffix] (SkSLString.cpp is
    not among the sources): on a match the suffix is stripped and the call
    answers true ([Some] of the shortened text), otherwise the text is left
    as it is and the call answers false ([None]). *)
Definition consumeSuffix (s suffix : string) : option string :=
  if endsWith s suffix
  then Some (substring 0 (slen s - slen suffix) s)
  else None.

(** [s] contains [sub] somewhere. *)
Definition occurs (sub s : string) : Prop :=
  exists a b, s = a ++ sub ++ b.


(** ** Settings and capabilities *)

(** The fields of [SkSL::Program::Settings] the driver touches. *)
Record Settings : Type := mkSettings {
  fFlipY : bool;
  fForceHighPrecision : bool;
  fInlineThreshold : Z;
  fSharpenTextures : bool;
  fReplaceSettings : bool
}.

Definition INT_MAX : Z := 2147483647.

(** Modelled from the spec: the default-constructed [SkSL::Program::Settings]
    (SkSLProgram.h is not among the sources): "all toggles false, default
    inline threshold". The default threshold and the default of the
    replace-settings flag are taken as parameters. *)
Definition default_settings (kDefaultInlineThreshold : Z) (replaceSettings : bool)
  : Settings :=
  {| fFlipY := false;
     fForceHighPrecision := false;
     fInlineThreshold := kDefaultInlineThreshold;
     fSharpenTextures := false;
     fReplaceSettings := replaceSettings |}.

(** The factory functions of [SkSL::ShaderCapsFactory] that the pragma
    parser calls. *)
Inductive Factory : Type :=
| AddAndTrueToLoopCondition
| BlendModesFailRandomlyForAllZeroVec
| CannotUseFractForNegativeValues
| CannotUseFragCoord
| CannotUseMinAndAbsTogether
| Default
| EmulateAbsIntFunction
| FragCoordsOld
| FragCoordsNew
| GeometryShaderExtensionString
| GeometryShaderSupport
| GSInvocationsExtensionString
| IncompleteShortIntPrecision
| MustGuardDivisionEvenAfterExplicitZeroCheck
| MustForceNegatedAtanParamToFloat
| NoGSInvocationsSupport
| RemovePowWithConstantExponent
| RewriteDoWhileLoops
| ShaderDerivativeExtensionString
| UnfoldShortCircuitAsTernary
| UsesPrecisionModifiers
| Version110
| Version450Core.

(** What a [const SkSL::ShaderCapsClass*] of the driver points to:
    [&SkSL::standaloneCaps], or the function-local static instance that a
    factory made on first use. *)
Inductive ShaderCaps : Type :=
| standaloneCaps
| staticCaps (f : Factory).

(** ** The [#pragma settings] parser *)

(** One [if (settingsText.consumeSuffix(...)) { ... }] statement of the
    loop body. *)
Inductive Pragma : Type :=
| UseCaps (f : Factory)
| FlipY
| ForceHighPrecision
| NoInline
| InlineThresholdMax
| Sharpen.

(** The string literal each statement passes to [consumeSuffix]. *)
Definition pragma_suffix (p : Pragma) : string :=
  match p with
  | UseCaps AddAndTrueToLoopCondition => " AddAndTrueToLoopCondition"
  | UseCaps BlendModesFailRandomlyForAllZeroVec => " BlendModesFailRandomlyForAllZeroVec"
  | UseCaps CannotUseFractForNegativeValues => " CannotUseFractForNegativeValues"
  | UseCaps CannotUseFragCoord => " CannotUseFragCoord"
  | UseCaps CannotUseMinAndAbsTogether => " CannotUseMinAndAbsTogether"
  | UseCaps Default => " Default"
  | UseCaps EmulateAbsIntFunction => " EmulateAbsIntFunction"
  | UseCaps FragCoordsOld => " FragCoordsOld"
  | UseCaps FragCoordsNew => " FragCoordsNew"
  | UseCaps GeometryShaderExtensionString => " GeometryShaderExtensionString"
  | UseCaps GeometryShaderSupport => " GeometryShaderSupport"
  | UseCaps GSInvocationsExtensionString => " GSInvocationsExtensionString"
  | UseCaps IncompleteShortIntPrecision => " IncompleteShortIntPrecision"
  | UseCaps MustGuardDivisionEvenAfterExplicitZeroCheck =>
      " MustGuardDivisionEvenAfterExplicitZeroCheck"
  | UseCaps MustForceNegatedAtanParamToFloat => " MustForceNegatedAtanParamToFloat"
  | UseCaps NoGSInvocationsSupport => " NoGSInvocationsSupport"
  | UseCaps RemovePowWithConstantExponent => " RemovePowWithConstantExponent"
  | UseCaps RewriteDoWhileLoops => " RewriteDoWhileLoops"
  | UseCaps ShaderDerivativeExtensionString => " ShaderDerivativeExtensionString"
  | UseCaps UnfoldShortCircuitAsTernary => " UnfoldShortCircuitAsTernary"
  | UseCaps UsesPrecisionModifiers => " UsesPrecisionModifiers"
  | UseCaps Version110 => " Version110"
  | UseCaps Version450Core => " Version450Core"
  | FlipY => " FlipY"
  | ForceHighPrecision => " ForceHighPrecision"
  | NoInline => " NoInline"
  | InlineThresholdMax => " InlineThresholdMax"
  | Sharpen => " Sharpen"
  end.

(** The statements in the order of the loop body (lines 86 to 192). *)
Definition pragma_order : list Pragma :=
  [ UseCaps AddAndTrueToLoopCondition;
    UseCaps BlendModesFailRandomlyForAllZeroVec;
    UseCaps CannotUseFractForNegativeValues;
    UseCaps CannotUseFragCoord;
    UseCaps CannotUseMinAndAbsTogether;
    UseCaps Default;
    UseCaps EmulateAbsIntFunction;
    UseCaps FragCoordsOld;
    UseCaps FragCoordsNew;
    UseCaps GeometryShaderExtensionString;
    UseCaps GeometryShaderSupport;
    UseCaps GSInvocationsExtensionString;
    UseCaps IncompleteShortIntPrecision;
    UseCaps MustGuardDivisionEvenAfterExplicitZeroCheck;
    UseCaps MustForceNegatedAtanParamToFloat;
    UseCaps NoGSInvocationsSupport;
    UseCaps RemovePowWithConstantExponent;
    UseCaps RewriteDoWhileLoops;
    UseCaps ShaderDerivativeExtensionString;
    UseCaps UnfoldShortCircuitAsTernary;
    UseCaps UsesPrecisionModifiers;
    UseCaps Version110;
    UseCaps Version450Core;
    FlipY;
    ForceHighPrecision;
    NoInline;
    InlineThresholdMax;
    Sharpen ].

(** The two outputs of [detect_shader_settings]: [*settings] and [*caps]. *)
Record Outputs : Type := mkOutputs {
  settings : Settings;
  caps : ShaderCaps
}.

Definition set_fFlipY (b : bool) (s : Settings) : Settings :=
  {| fFlipY := b;
     fForceHighPrecision := fForceHighPrecision s;
     fInlineThreshold := fInlineThreshold s;
     fSharpenTextures := fSharpenTextures s;
     fReplaceSettings := fReplaceSettings s |}.

Definition set_fForceHighPrecision (b : bool) (s : Settings) : Settings :=
  {| fFlipY := fFlipY s;
     fForceHighPrecision := b;
     fInlineThreshold := fInlineThreshold s;
     fSharpenTextures := fSharpenTextures s;
     fReplaceSettings := fReplaceSettings s |}.

Definition set_fInlineThreshold (n : Z) (s : Settings) : Settings :=
  {| fFlipY := fFlipY s;
     fForceHighPrecision := fForceHighPrecision s;
     fInlineThreshold := n;
     fSharpenTextures := fSharpenTextures s;
     fReplaceSettings := fReplaceSettings s |}.

Definition set_fSharpenTextures (b : bool) (s : Settings) : Settings :=
  {| fFlipY := fFlipY s;
     fForceHighPrecision := fForceHighPrecision s;
     fInlineThreshold := fInlineThreshold s;
     fSharpenTextures := b;
     fReplaceSettings := fReplaceSettings s |}.

Definition set_fReplaceSettings (b : bool) (s : Settings) : Settings :=
  {| fFlipY := fFlipY s;
     fForceHighPrecision := fForceHighPrecision s;
     fInlineThreshold := fInlineThreshold s;
     fSharpenTextures := fSharpenTextures s;
     fReplaceSettings := b |}.

(** The body of each [if]: what a consumed token does to the outputs. *)
Definition apply_pragma (p : Pragma) (o : Outputs) : Outputs :=
  match p with
  | UseCaps f => {| settings := settings o; caps := staticCaps f |}
  | FlipY => {| settings := set_fFlipY true (settings o); caps := caps o |}
  | ForceHighPrecision =>
      {| settings := set_fForceHighPrecision true (settings o); caps := caps o |}
  | NoInline => {| settings := set_fInlineThreshold 0 (settings o); caps := caps o |}
  | InlineThresholdMax =>
      {| settings := set_fInlineThreshold INT_MAX (settings o); caps := caps o |}
  | Sharpen => {| settings := set_fSharpenTextures true (settings o); caps := caps o |}
  end.

(** One [if (settingsText.consumeSuffix(tok)) { effect }] on the running
    text and the outputs. *)
Definition consume_step (st : string * Outputs) (p : Pragma) : string * Outputs :=
  match consumeSuffix (fst st) (pragma_suffix p) with
  | Some rest => (rest, apply_pragma p (snd st))
  | None => st
  end.

(** One trip through the loop body, up to the two exit tests. *)
Definition strip_pass (st : string * Outputs) : string * Outputs :=
  fold_left consume_step pragma_order st.

(** The same trip on the text alone. *)
Definition strip_text (s : string) : string :=
  fold_left
    (fun t p => match consumeSuffix t (pragma_suffix p) with
                | Some rest => rest
                | None => t
                end)
    pragma_order s.

(** What a call of [detect_shader_settings] leaves behind: its answer, the
    outputs, and the line it printed, if any. *)
Record Detected : Type := mkDetected {
  ok : bool;
  outputs : Outputs;
  printed : option string
}.

(** The [for (;;)] loop. Every trip that does not leave the loop has
    shortened the text, so [n] trips are enough for a text of [n]
    characters; the last branch is then never taken
    (see [settings_loop_unfold]). *)
Fixpoint settings_loop (n : nat) (st : string * Outputs) : Detected :=
  let startingLength := slen (fst st) in
  let st' := strip_pass st in
  if (fst st' =? "") then
    {| ok := true; outputs := snd st'; printed := None |}
  else if (slen (fst st') =? startingLength)%nat then
    {| ok := false; outputs := snd st';
       printed := Some ("Unrecognized #pragma settings: " ++ fst st' ++ LF) |}
  else match n with
       | S n' => settings_loop n' st'
       | O => {| ok := false; outputs := snd st'; printed := None |}
       end.

Definition kPragmaSettings : string := "/*#pragma settings ".

(** The text from [settingsPtr] up to the first terminator:
    [SkSL::String settingsText{settingsPtr, size_t(settingsEnd - settingsPtr)}];
    [None] when [strstr] gives the null pointer. *)
Definition text_before_terminator (settingsPtr : string) : option string :=
  match strstr settingsPtr "*/" with
  | Some settingsEnd =>
      Some (substring 0 (slen settingsPtr - slen settingsEnd) settingsPtr)
  | None => None
  end.

(** The text between the first marker of a C string, its last space
    included, and the first terminator after it; [None] when either
    [strstr] gives the null pointer. *)
Definition settings_of_c_str (s : string) : option string :=
  match strstr s kPragmaSettings with
  | Some found => text_before_terminator (advance (slen kPragmaSettings - 1) found)
  | None => None
  end.

Definition settings_text (text : string) : option string :=
  settings_of_c_str (c_str text).

Definition detect_shader_settings (text : string) (o : Outputs) : Detected :=
  match settings_text text with
  | Some settingsText => settings_loop (slen settingsText) (settingsText, o)
  | None => {| ok := true; outputs := o; printed := None |}
  end.

(** A pragma text written as a sequence of tokens, each with the space in
    front of it. *)
Fixpoint render (ts : list Pragma) : string :=
  match ts with
  | [] => ""
  | t :: rest => pragma_suffix t ++ render rest
  end.

(** The leftmost capability selector of a token sequence. *)
Fixpoint first_caps (ts : list Pragma) : option Factory :=
  match ts with
  | [] => None
  | UseCaps f :: _ => Some f
  | _ :: rest => first_caps rest
  end.

(** The number of capability selectors in a token sequence. *)
Fixpoint count_caps (ts : list Pragma) : nat :=
  match ts with
  | [] => 0
  | UseCaps _ :: rest => S (count_caps rest)
  | _ :: rest => count_caps rest
  end.

(** A text no statement of the loop body consumes anything from: the
    empty text, or an unrecognized remainder. *)
Definition inert (w : string) : Prop :=
  forall p, consumeSuffix w (pragma_suffix p) = None.

(** Texts without the character NUL, without a star, without a space. *)
Fixpoint nul_free (s : string) : bool :=
  match s with
  | EmptyString => true
  | String c r => negb (Ascii.eqb c NUL) && nul_free r
  end.

Fixpoint star_free (s : string) : bool :=
  match s with
  | EmptyString => true
  | String c r => negb (Ascii.eqb c "*"%char) && star_free r
  end.

Fixpoint space_free (s : string) : bool :=
  match s with
  | EmptyString => true
  | String c r => negb (Ascii.eqb c " "%char) && space_free r
  end.

(** ** [base_name] *)

Definition is_separator (c : ascii) : bool :=
  Ascii.eqb c "/"%char || Ascii.eqb c "\"%char.

(** The loop that backs up until it finds a slash, on the offset of
    [fileName] in the path: it stops at offset 0 (where the text at
    [fileName] is the whole path) and behind a separator. *)
Fixpoint back_up (fpPath : string) (k : nat) : nat :=
  match k with
  | O => O
  | S k' =>
      match get k' fpPath with
      | Some c => if is_separator c then k else back_up fpPath k'
      | None => back_up fpPath k'
      end
  end.

(** [strncmp(end - strlen(suffix), suffix, strlen(suffix)) == 0]. When the
    suffix is longer than the path the comparison would start in front of
    the path; no character sequence of the path equals the suffix then, and
    the comparison counts as unequal. *)
Definition end_matches (fpPath suffix : string) : bool :=
  (slen suffix <=? slen fpPath)%nat &&
  (substring (slen fpPath - slen suffix) (slen suffix) fpPath =? suffix).

(** [result.append(fileName + strlen(prefix), end - fileName - strlen(prefix)
    - strlen(suffix))] when both comparisons succeed, the empty [result]
    otherwise. The length is a natural number here. Where both comparisons
    succeed on a prefix and a suffix that overlap inside the file name
    ([length_wraps] below), the [size_t] length of the source wraps around
    and [append] throws; the model gives the empty text there. The two
    calls in [processCommand] never get there. *)
Definition base_name (fpPath prefix suffix : string) : string :=
  let fileName := back_up fpPath (slen fpPath) in
  if starts_with (advance fileName fpPath) prefix && end_matches fpPath suffix
  then substring (fileName + slen prefix)
                 (slen fpPath - fileName - slen prefix - slen suffix) fpPath
  else "".

(** The text at [fileName] once the loop has ended: the file name part of
    the path. *)
Definition file_name (fpPath : string) : string :=
  advance (back_up fpPath (slen fpPath)) fpPath.

(** Whether both comparisons of [base_name] succeed while the file name
    is shorter than prefix and suffix together: the inputs on which
    [end - fileName - strlen(prefix) - strlen(suffix)] wraps around as a
    [size_t]. *)
Definition length_wraps (fpPath prefix suffix : string) : bool :=
  let fileName := back_up fpPath (slen fpPath) in
  starts_with (advance fileName fpPath) prefix && end_matches fpPath suffix &&
  (slen fpPath - fileName <? slen prefix + slen suffix)%nat.

(** Texts without slash and backslash. *)
Fixpoint separator_free (s : string) : bool :=
  match s with
  | EmptyString => true
  | String c r => negb (is_separator c) && separator_free r
  end.


(** ** The world around a job *)

(** A computation that may change the world: the console, the files and
    the compiler's inner state. *)
Definition M (W A : Type) : Type := W -> A * W.

Definition ret {W A : Type} (a : A) : M W A := fun w => (a, w).

Definition bind {W A B : Type} (c : M W A) (k : A -> M W B) : M W B :=
  fun w => let (a, w') := c w in k a w'.

Notation "x <- c ;; k" := (bind c (fun x => k))
  (at level 61, c at next level, right associativity).
Notation "c ;; k" := (bind c (fun _ => k))
  (at level 61, right associativity).

(** [SkSL::Program::Kind], as far as the driver chooses it. *)
Inductive Kind : Type :=
| kVertex_Kind
| kFragment_Kind
| kGeometry_Kind
| kFragmentProcessor_Kind
| kPipelineStage_Kind.

(** The collaborators of the driver: the console, the two file streams and
    the compiler with its code generators. [W] is the state of the world,
    [P] stands for [SkSL::Program]. *)
Record Env (W P : Type) : Type := mkEnv {
  (** [printf] and [puts] on the standard output *)
  sk_print : string -> M W unit;
  (** the default inline threshold and replace-settings flag of a fresh
      [SkSL::Program::Settings] *)
  kDefaultInlineThreshold : Z;
  kDefaultReplaceSettings : bool;
  (** [std::ifstream in(inputPath)] read to its end; [None] when
      [in.rdstate()] is not zero afterwards *)
  read_input : string -> M W (option string);
  (** [SkSL::FileOutputStream out(outputPath)] and its [isValid()] *)
  out_open : string -> M W bool;
  (** [writeText] and [printf] on the open stream *)
  out_write : string -> M W unit;
  (** [close()] of the open stream *)
  out_close : M W bool;
  (** [SkSL::Compiler compiler(caps)] and
      [SkSL::Compiler compiler(caps, kPermitInvalidStaticTests_Flag)]: the
      construction of the compiler; the flag says whether
      [kPermitInvalidStaticTests_Flag] is given *)
  newCompiler : ShaderCaps -> bool -> M W unit;
  (** [compiler.convertProgram(kind, text, settings)] on the compiler that
      was constructed with these capabilities and this flag; [None] is the
      null program *)
  convertProgram : ShaderCaps -> bool -> Kind -> string -> Settings -> M W (option P);
  toSPIRV : P -> M W bool;
  toGLSL : P -> M W bool;
  toMetal : P -> M W bool;
  toH : P -> string -> M W bool;
  toCPP : P -> string -> M W bool;
  (** [compiler.errorText()] *)
  errorText : M W string;
  (** [compiler.loadModule] on the module path of the input, the two
      [dehydrator.write] calls and [dehydrator.finish]: the bytes of the
      buffer and the dehydrator's [prefixAtOffset] *)
  dehydrate : ShaderCaps -> Kind -> string -> M W (string * (nat -> string))
}.

Arguments sk_print {W P}.
Arguments kDefaultInlineThreshold {W P}.
Arguments kDefaultReplaceSettings {W P}.
Arguments read_input {W P}.
Arguments out_open {W P}.
Arguments out_write {W P}.
Arguments out_close {W P}.
Arguments newCompiler {W P}.
Arguments convertProgram {W P}.
Arguments toSPIRV {W P}.
Arguments toGLSL {W P}.
Arguments toMetal {W P}.
Arguments toH {W P}.
Arguments toCPP {W P}.
Arguments errorText {W P}.
Arguments dehydrate {W P}.

(** [%d] of a [uint8_t]. *)
Definition decimal (c : ascii) : string :=
  NilEmpty.string_of_uint (Nat.to_uint (nat_of_ascii c)).

(** The input suffixes and the kind each one selects (lines 243 to 257);
    [None] is the last [else]. *)
Definition input_kind (inputPath : string) : option Kind :=
  if endsWith inputPath ".vert" then Some kVertex_Kind
  else if endsWith inputPath ".frag" || endsWith inputPath ".sksl" then Some kFragment_Kind
  else if endsWith inputPath ".geom" then Some kGeometry_Kind
  else if endsWith inputPath ".fp" then Some kFragmentProcessor_Kind
  else if endsWith inputPath ".stage" then Some kPipelineStage_Kind
  else None.

Definition usage_text : string :=
  "usage: skslc <input> <output> <flags> -- <input2> <output2> <flags> -- ..." ++ LF ++
  LF ++
  "Allowed flags:" ++ LF ++
  "--settings:   honor embedded /*#pragma settings*/ comments." ++ LF ++
  "--nosettings: ignore /*#pragma settings*/ comments" ++ LF.

Definition kind_text : string :=
  "input filename must end in '.vert', '.frag', '.geom', '.fp', '.stage', or " ++
  "'.sksl'" ++ LF.

Definition backend_text : string :=
  "expected output filename to end with '.spirv', '.glsl', '.cpp', '.h', or '.metal'".

Section Driver.

Variables W P : Type.
Variable E : Env W P.

Definition show_usage : M W unit := sk_print E usage_text.

(** The lambda [emitCompileError]: the compiler output, if any, is
    overwritten with an error message, which also goes to stdout. *)
Definition emitCompileError (outputPath errText : string) : M W unit :=
  _ <- out_close E ;;
  _ <- out_open E outputPath ;;
  out_write E ("### Compilation failed:" ++ LF ++ LF) ;;
  out_write E errText ;;
  _ <- out_close E ;;
  sk_print E (errText ++ LF).

(** The body shared by the [.spirv], [.glsl], [.metal], [.h] and [.cpp]
    branches; they differ in the compiler flag, the settings handed to the
    compiler and the code generator. The compiler is constructed right
    after the stream, before the stream's validity is tested. *)
Definition compile_to (outputPath : string) (o : Outputs) (permitInvalidStaticTests : bool)
    (kind : Kind) (text : string) (emit : P -> M W bool) : M W ResultCode :=
  valid <- out_open E outputPath ;;
  newCompiler E (caps o) permitInvalidStaticTests ;;
  if negb valid then
    sk_print E ("error writing '" ++ outputPath ++ "'" ++ LF) ;;
    ret kOutputError
  else
    program <- convertProgram E (caps o) permitInvalidStaticTests kind text (settings o) ;;
    emitted <- match program with
               | Some p => emit p
               | None => ret false
               end ;;
    if negb emitted then
      err <- errorText E ;;
      emitCompileError outputPath err ;;
      ret kCompileError
    else
      closed <- out_close E ;;
      if negb closed then
        sk_print E ("error writing '" ++ outputPath ++ "'" ++ LF) ;;
        ret kOutputError
      else ret kSuccess.

(** The [for] loop that prints the bytes of the dehydrated module. *)
Fixpoint write_bytes (prefixAtOffset : nat -> string) (i : nat) (data : string)
  : M W unit :=
  match data with
  | EmptyString => ret tt
  | String c rest =>
      out_write E (prefixAtOffset i ++ decimal c ++ ",") ;;
      write_bytes prefixAtOffset (S i) rest
  end.

(** Lines 376 to 391: the module is loaded and dehydrated, and its bytes
    are written as a C array with its length constant. *)
Definition write_module (inputPath : string) (o : Outputs) (kind : Kind) : M W unit :=
  module <- dehydrate E (caps o) kind inputPath ;;
  let baseName := base_name inputPath "" ".sksl" in
  out_write E ("static uint8_t SKSL_INCLUDE_" ++ baseName ++ "[] = {") ;;
  write_bytes (snd module) 0 (fst module) ;;
  out_write E ("};" ++ LF) ;;
  out_write E ("static constexpr size_t SKSL_INCLUDE_" ++ baseName ++
               "_LENGTH = sizeof(SKSL_INCLUDE_" ++ baseName ++ ");" ++ LF).

(** The [.dehydrated.sksl] branch; here too the compiler is constructed
    before the validity test. *)
Definition dehydrate_to (inputPath outputPath : string) (o : Outputs) (kind : Kind)
  : M W ResultCode :=
  valid <- out_open E outputPath ;;
  newCompiler E (caps o) false ;;
  if negb valid then
    sk_print E ("error writing '" ++ outputPath ++ "'" ++ LF) ;;
    ret kOutputError
  else
    write_module inputPath o kind ;;
    closed <- out_close E ;;
    if negb closed then
      sk_print E ("error writing '" ++ outputPath ++ "'" ++ LF) ;;
      ret kOutputError
    else ret kSuccess.

(** Lines 287 to 400: the chain of tests on the output suffix. *)
Definition run_backend (inputPath outputPath : string) (o : Outputs) (kind : Kind)
    (text : string) : M W ResultCode :=
  if endsWith outputPath ".spirv" then
    compile_to outputPath o false kind text (toSPIRV E)
  else if endsWith outputPath ".glsl" then
    compile_to outputPath o false kind text (toGLSL E)
  else if endsWith outputPath ".metal" then
    compile_to outputPath o false kind text (toMetal E)
  else if endsWith outputPath ".h" then
    compile_to outputPath
      {| settings := set_fReplaceSettings false (settings o); caps := caps o |}
      true kind text
      (fun p => toH E p (base_name (c_str inputPath) "Gr" ".fp"))
  else if endsWith outputPath ".cpp" then
    compile_to outputPath
      {| settings := set_fReplaceSettings false (settings o); caps := caps o |}
      true kind text
      (fun p => toCPP E p (base_name (c_str inputPath) "Gr" ".fp"))
  else if endsWith outputPath ".dehydrated.sksl" then
    dehydrate_to inputPath outputPath o kind
  else
    sk_print E backend_text ;;
    ret kInputError.

(** Lines 241 to 400: a job whose arguments have passed the count and flag
    tests. *)
Definition run_job (args : list string) (honorSettings : bool) : M W ResultCode :=
  let inputPath := nth 1 args "" in
  match input_kind inputPath with
  | None =>
      sk_print E kind_text ;;
      ret kInputError
  | Some kind =>
      input <- read_input E inputPath ;;
      match input with
      | None =>
          sk_print E ("error reading '" ++ inputPath ++ "'" ++ LF) ;;
          ret kInputError
      | Some text =>
          let o := {| settings := default_settings (kDefaultInlineThreshold E)
                                    (kDefaultReplaceSettings E);
                      caps := standaloneCaps |} in
          let outputPath := nth 2 args "" in
          if honorSettings then
            let d := detect_shader_settings text o in
            match printed d with
            | Some line => sk_print E line
            | None => ret tt
            end ;;
            if negb (ok d) then ret kInputError
            else run_backend inputPath outputPath (outputs d) kind text
          else run_backend inputPath outputPath o kind text
      end
  end.

(** Handle a single input. *)
Definition processCommand (args : list string) : M W ResultCode :=
  if (List.length args =? 4)%nat then
    let settingsArg := nth 3 args "" in
    if settingsArg =? "--settings" then run_job args true
    else if settingsArg =? "--nosettings" then run_job args false
    else
      sk_print E ("unrecognized flag: " ++ settingsArg ++ LF ++ LF) ;;
      show_usage ;;
      ret kInputError
  else if negb (List.length args =? 3)%nat then
    show_usage ;;
    ret kInputError
  else run_job args true.

(** The [for] loop of [main] over [argv[1]] to [argv[argc - 1]]: [args] is
    the command collected so far and [resultCode] the worst outcome so
    far. *)
Fixpoint main_loop (rest : list string) (args : list string) (resultCode : ResultCode)
  : M W (list string * ResultCode) :=
  match rest with
  | [] => ret (args, resultCode)
  | arg :: rest' =>
      if negb (arg =? "--") then
        main_loop rest' (args ++ [arg])%list resultCode
      else if (1 <? List.length args)%nat then
        outcome <- processCommand args ;;
        main_loop rest' (firstn 1 args) (max_code resultCode outcome)
      else main_loop rest' args resultCode
  end.

(** [main], on [argv[0]] and the arguments after it; the answer is the exit
    status. *)
Definition main (argv0 : string) (argv : list string) : M W Z :=
  st <- main_loop argv [argv0] kSuccess ;;
  let args := fst st in
  let resultCode := snd st in
  if (1 <? List.length args)%nat then
    outcome <- processCommand args ;;
    ret (code (max_code resultCode outcome))
  else ret (code resultCode).

(** The jobs of a batch, as the specification describes them: the argument
    sequence split at the delimiter, segments without arguments dropped,
    each with the program name in front. [cur] is the segment being read,
    in reverse. *)
Fixpoint split_jobs (argv0 : string) (cur : list string) (argv : list string)
  : list (list string) :=
  match argv with
  | [] => match cur with
          | [] => []
          | _ => [argv0 :: rev cur]
          end
  | arg :: rest =>
      if arg =? "--" then
        match cur with
        | [] => split_jobs argv0 [] rest
        | _ => (argv0 :: rev cur) :: split_jobs argv0 [] rest
        end
      else split_jobs argv0 (arg :: cur) rest
  end.

(** The jobs run one after the other, the outcomes collected in order. *)
Fixpoint run_jobs (jobs : list (list string)) : M W (list ResultCode) :=
  match jobs with
  | [] => ret []
  | job :: rest =>
      outcome <- processCommand job ;;
      outcomes <- run_jobs rest ;;
      ret (outcome :: outcomes)
  end.

End Driver.

Arguments show_usage {W P}.
Arguments emitCompileError {W P}.
Arguments compile_to {W P}.
Arguments write_bytes {W P}.
Arguments write_module {W P}.
Arguments dehydrate_to {W P}.
Arguments run_backend {W P}.
Arguments run_job {W P}.
Arguments processCommand {W P}.
Arguments main_loop {W P}.
Arguments main {W P}.
Arguments run_jobs {W P}.

(** The most severe of a list of outcomes; [kSuccess] for the empty list. *)
Definition worst (outcomes : list ResultCode) : ResultCode :=
  fold_left max_code outcomes kSuccess.

(** The argument lists that pass the count and flag tests of
    [processCommand], and those among them for which the pragma parser is
    run. *)
Definition accepted (args : list string) : Prop :=
  List.length args = 3 \/
  (List.length args = 4 /\
   (nth 3 args "" = "--settings" \/ nth 3 args "" = "--nosettings")).

Definition honors (args : list string) : Prop :=
  List.length args = 3 \/
  (List.length args = 4 /\ nth 3 args "" = "--settings").

(** ** A world that keeps a log *)

(** What a job can do to the world, one event per call of a collaborator. *)
Inductive Event : Type :=
| Stdout (line : string)
| ReadInput (path : string)
| OpenOutput (path : string)
| WriteOutput (data : string)
| CloseOutput
| NewCompiler (c : ShaderCaps) (permitInvalidStaticTests : bool)
| ConvertProgram (c : ShaderCaps) (permitInvalidStaticTests : bool) (k : Kind)
    (s : Settings)
| Emit (generator : string)
| ErrorText
| Dehydrate (path : string).

(** The answers of the collaborators in such a world. *)
Record Answers : Type := mkAnswers {
  input_of : string -> option string;
  output_valid : string -> bool;
  close_ok : bool;
  program_ok : bool;
  emit_ok : bool;
  error_text : string;
  module_bytes : string
}.

Definition log {A : Type} (e : Event) (a : A) : M (list Event) A :=
  fun w => (a, (w ++ [e])%list).

(** The collaborators that answer from [a] and write every call to the
    log; a program is the unit value. *)
Definition logging_env (a : Answers) : Env (list Event) unit :=
  {| sk_print := fun line => log (Stdout line) tt;
     kDefaultInlineThreshold := 50;
     kDefaultReplaceSettings := true;
     read_input := fun path => log (ReadInput path) (input_of a path);
     out_open := fun path => log (OpenOutput path) (output_valid a path);
     out_write := fun data => log (WriteOutput data) tt;
     out_close := log CloseOutput (close_ok a);
     newCompiler := fun c f => log (NewCompiler c f) tt;
     convertProgram := fun c f k _ s =>
       log (ConvertProgram c f k s) (if program_ok a then Some tt else None);
     toSPIRV := fun _ => log (Emit "toSPIRV") (emit_ok a);
     toGLSL := fun _ => log (Emit "toGLSL") (emit_ok a);
     toMetal := fun _ => log (Emit "toMetal") (emit_ok a);
     toH := fun _ name => log (Emit ("toH " ++ name)) (emit_ok a);
     toCPP := fun _ name => log (Emit ("toCPP " ++ name)) (emit_ok a);
     errorText := log ErrorText (error_text a);
     dehydrate := fun _ _ path =>
       log (Dehydrate path) (module_bytes a, fun _ => "") |}.

(** Answers for a run in which every input holds [text], every output
    opens, the compiler and the generators succeed, and [close] answers
    [closes]. *)
Definition answers (text : string) (closes : bool) : Answers :=
  {| input_of := fun _ => Some text;
     output_valid := fun _ => true;
     close_ok := closes;
     program_ok := true;
     emit_ok := true;
     error_text := "";
     module_bytes := "ab" |}.

(** ** Summaries of a token sequence *)

(** The leftmost inline-threshold token of a token sequence, as the value it
    stores. *)
Fixpoint first_threshold (ts : list Pragma) : option Z :=
  match ts with
  | [] => None
  | NoInline :: _ => Some 0%Z
  | InlineThresholdMax :: _ => Some INT_MAX
  | _ :: rest => first_threshold rest
  end.

Definition is_FlipY (p : Pragma) : bool :=
  match p with FlipY => true | _ => false end.

Definition is_ForceHighPrecision (p : Pragma) : bool :=
  match p with ForceHighPrecision => true | _ => false end.

Definition is_Sharpen (p : Pragma) : bool :=
  match p with Sharpen => true | _ => false end.

(** Answers for a run in which every input holds [text] and the other
    collaborators answer as the four flags and the error text say. *)
Definition answers_with (text : string) (valid program emits closes : bool)
    (err : string) : Answers :=
  {| input_of := fun _ => Some text;
     output_valid := fun _ => valid;
     close_ok := closes;
     program_ok := program;
     emit_ok := emits;
     error_text := err;
     module_bytes := "ab" |}.

(** ** Reading the log of a job *)

Definition is_stdout (e : Event) : bool :=
  match e with Stdout _ => true | _ => false end.

Definition is_read (e : Event) : bool :=
  match e with ReadInput _ => true | _ => false end.

Definition is_open (e : Event) : bool :=
  match e with OpenOutput _ => true | _ => false end.

Definition is_close (e : Event) : bool :=
  match e with CloseOutput => true | _ => false end.

Definition is_error_text (e : Event) : bool :=
  match e with ErrorText => true | _ => false end.

(** A call that makes the compiler work: [convertProgram] or the loading
    and dehydrating of a module. *)
Definition is_compile (e : Event) : bool :=
  match e with ConvertProgram _ _ _ _ | Dehydrate _ => true | _ => false end.

(** The texts that [write_bytes] writes, in order. *)
Fixpoint byte_entries (prefixAtOffset : nat -> string) (i : nat) (data : string)
  : list string :=
  match data with
  | EmptyString => []
  | String c rest =>
      (prefixAtOffset i ++ decimal c ++ ",") :: byte_entries prefixAtOffset (S i) rest
  end.

(** What [emitCompileError] does in the logging world. *)
Definition rewrite_events (a : Answers) (outputPath : string) : list Event :=
  [CloseOutput; OpenOutput outputPath;
   WriteOutput ("### Compilation failed:" ++ LF ++ LF);
   WriteOutput (error_text a); CloseOutput; Stdout (error_text a ++ LF)].

(** The runs of a job in the logging world, by outcome: rejected before
    the input is read, refused after it is read, output not opened, no
    program, no code, compiled, dehydrated; the last two with a good or a
    bad final [close]. *)
Inductive JobRun (a : Answers) (inputPath outputPath : string)
  : ResultCode -> list Event -> Prop :=
| run_rejected (lines : list string) :
    lines <> [] ->
    JobRun a inputPath outputPath kInputError (map Stdout lines)
| run_refused (line : string) :
    JobRun a inputPath outputPath kInputError [ReadInput inputPath; Stdout line]
| run_unopened (c : ShaderCaps) (f : bool) (line : string) :
    output_valid a outputPath = false ->
    JobRun a inputPath outputPath kOutputError
      [ReadInput inputPath; OpenOutput outputPath; NewCompiler c f; Stdout line]
| run_no_program (c : ShaderCaps) (f : bool) (k : Kind) (s : Settings) :
    output_valid a outputPath = true ->
    JobRun a inputPath outputPath kCompileError
      ([ReadInput inputPath; OpenOutput outputPath; NewCompiler c f;
        ConvertProgram c f k s; ErrorText]
       ++ rewrite_events a outputPath)
| run_no_code (c : ShaderCaps) (f : bool) (k : Kind) (s : Settings) (g : string) :
    output_valid a outputPath = true ->
    JobRun a inputPath outputPath kCompileError
      ([ReadInput inputPath; OpenOutput outputPath; NewCompiler c f;
        ConvertProgram c f k s; Emit g; ErrorText] ++ rewrite_events a outputPath)
| run_compiled (c : ShaderCaps) (f : bool) (k : Kind) (s : Settings) (g : string) :
    output_valid a outputPath = true -> close_ok a = true ->
    JobRun a inputPath outputPath kSuccess
      [ReadInput inputPath; OpenOutput outputPath; NewCompiler c f;
       ConvertProgram c f k s; Emit g; CloseOutput]
| run_compiled_unclosed (c : ShaderCaps) (f : bool) (k : Kind) (s : Settings)
    (g line : string) :
    output_valid a outputPath = true -> close_ok a = false ->
    JobRun a inputPath outputPath kOutputError
      [ReadInput inputPath; OpenOutput outputPath; NewCompiler c f;
       ConvertProgram c f k s; Emit g; CloseOutput; Stdout line]
| run_dehydrated (c : ShaderCaps) (ws : list string) :
    output_valid a outputPath = true -> close_ok a = true ->
    JobRun a inputPath outputPath kSuccess
      (ReadInput inputPath :: OpenOutput outputPath :: NewCompiler c false ::
       Dehydrate inputPath :: map WriteOutput ws ++ [CloseOutput])
| run_dehydrated_unclosed (c : ShaderCaps) (ws : list string) (line : string) :
    output_valid a outputPath = true -> close_ok a = false ->
    JobRun a inputPath outputPath kOutputError
      (ReadInput inputPath :: OpenOutput outputPath :: NewCompiler c false ::
       Dehydrate inputPath :: map WriteOutput ws ++ [CloseOutput; Stdout line]).

(** ** What the compiler is called with *)

(** Whether the job's flag lets the pragma parser run: every flag but
    [--nosettings] that gets as far as [run_job] does. *)
Definition honored (args : list string) : bool :=
  negb (nth 3 args "" =? "--nosettings").

(** The settings and capabilities a job in the world of [a] starts from. *)
Definition default_outputs (a : Answers) : Outputs :=
  {| settings := default_settings (kDefaultInlineThreshold (logging_env a))
                   (kDefaultReplaceSettings (logging_env a));
     caps := standaloneCaps |}.

(** The settings and capabilities of a job after the pragma parser, if it
    runs, has seen [text]. *)
Definition job_outputs (a : Answers) (args : list string) (text : string) : Outputs :=
  if honored args then outputs (detect_shader_settings text (default_outputs a))
  else default_outputs a.

(** The outputs whose branches compile with [permitInvalidStaticTests]. *)
Definition header_output (outputPath : string) : bool :=
  endsWith outputPath ".h" || endsWith outputPath ".cpp".

(** The one call of [convertProgram] that a job with these outputs, kind
    and output path can make. *)
Definition call_of (o : Outputs) (kind : Kind) (outputPath : string) : Event :=
  ConvertProgram (caps o) (header_output outputPath) kind
    (if header_output outputPath then set_fReplaceSettings false (settings o)
     else settings o).

(** ** The pipelines as a table *)

(** The settings and capabilities a job starts from: a fresh
    [SkSL::Program::Settings] and [&SkSL::standaloneCaps] (lines 267 and
    268). *)
Definition fresh_outputs {W P : Type} (E : Env W P) : Outputs :=
  {| settings := default_settings (kDefaultInlineThreshold E)
                   (kDefaultReplaceSettings E);
     caps := standaloneCaps |}.

(** [convertProgram] and, when there is a program, the code generator: the
    two tests of [!program || !compiler.toX( *program, out)]; the answer is
    whether both succeeded. *)
Definition convert_and_emit {W P : Type} (E : Env W P) (o : Outputs) (flag : bool)
    (kind : Kind) (text : string) (emit : P -> M W bool) : M W bool :=
  program <- convertProgram E (caps o) flag kind text (settings o) ;;
  match program with
  | Some p => emit p
  | None => ret false
  end.

(** The six branches of lines 287 to 395, one row each: the output suffix,
    whether the compiler is constructed with
    [kPermitInvalidStaticTests_Flag], and the steps between the validity
    test and the final [close], which answer whether they succeeded.
    [run_backend] is the code; the table is for stating what holds of every
    pipeline. *)
Definition pipelines {W P : Type} (E : Env W P) (inputPath : string) (o : Outputs)
    (kind : Kind) (text : string) : list (string * bool * M W bool) :=
  let o' := {| settings := set_fReplaceSettings false (settings o);
               caps := caps o |} in
  [ (".spirv", false, convert_and_emit E o false kind text (toSPIRV E));
    (".glsl", false, convert_and_emit E o false kind text (toGLSL E));
    (".metal", false, convert_and_emit E o false kind text (toMetal E));
    (".h", true,
     convert_and_emit E o' true kind text
       (fun p => toH E p (base_name (c_str inputPath) "Gr" ".fp")));
    (".cpp", true,
     convert_and_emit E o' true kind text
       (fun p => toCPP E p (base_name (c_str inputPath) "Gr" ".fp")));
    (".dehydrated.sksl", false, write_module E inputPath o kind ;; ret true) ].

(** ** The selectors of a text, read as words *)

(** The words of a text: its pieces between spaces, from left to right;
    [cur] is the word being read. The parser never splits the text into
    words; this is the reading of a pragma text by which a selector
    appears in it. *)
Fixpoint words_from (cur : string) (s : string) : list string :=
  match s with
  | EmptyString => [cur]
  | String c r =>
      if Ascii.eqb c " "%char then cur :: words_from "" r
      else words_from (cur ++ String c "") r
  end.

(** The capability selector that a word names, if it names one. *)
Definition selector_of_word (word : string) : option Factory :=
  first_caps (filter (fun p => pragma_suffix p =? String " "%char word) pragma_order).

(** The capability selectors that appear in a text as words, from left to
    right. *)
Definition selectors_in_text (s : string) : list Factory :=
  flat_map (fun word => match selector_of_word word with
                        | Some f => [f]
                        | None => []
                        end) (words_from "" s).

(** The capability selectors of a token sequence, from left to right. *)
Definition selectors_of (ts : list Pragma) : list Factory :=
  flat_map (fun t => match t with UseCaps f => [f] | _ => [] end) ts.

(** ** Facts on strings *)

Section StringFacts.

Lemma append_nil_r (s : string) : s ++ "" = s.
Proof. induction s as [|c s IH]; simpl; [reflexivity | now rewrite IH]. Qed.

Lemma append_assoc (a b c : string) : (a ++ b) ++ c = a ++ (b ++ c).
Proof. induction a as [|x a IH]; simpl; [reflexivity | now rewrite IH]. Qed.

Lemma slen_append (a b : string) : slen (a ++ b) = slen a + slen b.
Proof. induction a as [|x a IH]; simpl; [reflexivity | now rewrite IH]. Qed.

Lemma append_inv_head (a b c : string) : a ++ b = a ++ c -> b = c.
Proof.
  induction a as [|x a IH]; simpl; intros H; [exact H |].
  injection H as H. now apply IH.
Qed.

Lemma append_inv_len (a b c d : string) :
  a ++ b = c ++ d -> slen a = slen c -> a = c /\ b = d.
Proof.
  revert c. induction a as [|x a IH]; intros [|y c]; simpl; intros H L;
    try discriminate.
  - now split.
  - injection H as -> H. injection L as L.
    destruct (IH _ H L) as [-> ->]. now split.
Qed.

Lemma substring_0_append (a b : string) : substring 0 (slen a) (a ++ b) = a.
Proof.
  induction a as [|x a IH]; simpl.
  - now destruct b.
  - now rewrite IH.
Qed.

Lemma substring_skip_append (a b : string) (n : nat) :
  substring (slen a) n (a ++ b) = substring 0 n b.
Proof. induction a as [|x a IH]; simpl; [reflexivity | exact IH]. Qed.

Lemma substring_0_all (s : string) : substring 0 (slen s) s = s.
Proof. induction s as [|c s IH]; simpl; [reflexivity | now rewrite IH]. Qed.

Lemma substring_split (s : string) (n : nat) :
  n <= slen s -> substring 0 n s ++ substring n (slen s - n) s = s.
Proof.
  revert n. induction s as [|c s IH]; intros [|n] L; simpl in *;
    try reflexivity; try lia.
  - now rewrite substring_0_all.
  - rewrite IH by lia. reflexivity.
Qed.

Lemma slen_substring_0 (s : string) (n : nat) :
  n <= slen s -> slen (substring 0 n s) = n.
Proof.
  revert n. induction s as [|c s IH]; intros [|n] L; simpl in *;
    try reflexivity; try lia.
  rewrite IH by lia. reflexivity.
Qed.

(** [endsWith] says what its name says. *)
Lemma endsWith_iff (s suffix : string) :
  endsWith s suffix = true <-> exists r, s = r ++ suffix.
Proof.
  unfold endsWith. rewrite andb_true_iff, Nat.leb_le, String.eqb_eq. split.
  - intros [L E]. exists (substring 0 (slen s - slen suffix) s).
    pose proof (substring_split s (slen s - slen suffix)) as P.
    replace (slen s - (slen s - slen suffix)) with (slen suffix) in P by lia.
    rewrite E in P. symmetry. apply P. lia.
  - intros [r ->]. rewrite slen_append. split; [lia |].
    replace (slen r + slen suffix - slen suffix) with (slen r) by lia.
    rewrite substring_skip_append. apply substring_0_all.
Qed.

Lemma consumeSuffix_Some (s suffix r : string) :
  consumeSuffix s suffix = Some r <-> s = r ++ suffix.
Proof.
  unfold consumeSuffix. split.
  - destruct (endsWith s suffix) eqn:E; [| discriminate].
    intros [= <-]. apply endsWith_iff in E. destruct E as [r ->].
    rewrite slen_append.
    replace (slen r + slen suffix - slen suffix) with (slen r) by lia.
    now rewrite substring_0_append.
  - intros ->.
    assert (E : endsWith (r ++ suffix) suffix = true)
      by (apply endsWith_iff; now exists r).
    rewrite E, slen_append.
    replace (slen r + slen suffix - slen suffix) with (slen r) by lia.
    now rewrite substring_0_append.
Qed.

Lemma consumeSuffix_None (s suffix : string) :
  consumeSuffix s suffix = None <-> forall r, s <> r ++ suffix.
Proof.
  split.
  - intros N r E. apply consumeSuffix_Some in E. congruence.
  - intros H. destruct (consumeSuffix s suffix) as [r|] eqn:E; [| reflexivity].
    apply consumeSuffix_Some in E. now destruct (H r).
Qed.

Lemma consumeSuffix_shorter (s suffix r : string) :
  consumeSuffix s suffix = Some r -> slen r + slen suffix = slen s.
Proof.
  intros E. apply consumeSuffix_Some in E. subst s. symmetry. apply slen_append.
Qed.

End StringFacts.

(** ** Facts on the stripping pass and the loop *)

Section PassFacts.

Lemma fold_consume_text (tbl : list Pragma) (s : string) (o : Outputs) :
  fst (fold_left consume_step tbl (s, o)) =
  fold_left (fun t p => match consumeSuffix t (pragma_suffix p) with
                        | Some rest => rest
                        | None => t
                        end) tbl s.
Proof.
  revert s o. induction tbl as [|p tbl IH]; intros s o; simpl; [reflexivity |].
  unfold consume_step at 2. simpl.
  destruct (consumeSuffix s (pragma_suffix p)); apply IH.
Qed.

Lemma strip_pass_text (st : string * Outputs) :
  fst (strip_pass st) = strip_text (fst st).
Proof. destruct st as [s o]. apply fold_consume_text. Qed.

Lemma fold_consume_removed (tbl : list Pragma) (s : string) :
  exists removed,
    s = fold_left (fun t p => match consumeSuffix t (pragma_suffix p) with
                              | Some rest => rest
                              | None => t
                              end) tbl s ++ removed.
Proof.
  revert s. induction tbl as [|p tbl IH]; intros s; simpl.
  - exists "". now rewrite append_nil_r.
  - destruct (consumeSuffix s (pragma_suffix p)) as [r|] eqn:C.
    + apply consumeSuffix_Some in C. destruct (IH r) as [rm R].
      exists (rm ++ pragma_suffix p). rewrite <- append_assoc, <- R. exact C.
    + apply IH.
Qed.

Lemma strip_text_removed (s : string) : exists removed, s = strip_text s ++ removed.
Proof. apply fold_consume_removed. Qed.

Lemma strip_text_le (s : string) : slen (strip_text s) <= slen s.
Proof.
  destruct (strip_text_removed s) as [rm R]. rewrite R at 2.
  rewrite slen_append. lia.
Qed.

Lemma strip_text_same_length (s : string) :
  slen (strip_text s) = slen s -> strip_text s = s.
Proof.
  intros L. destruct (strip_text_removed s) as [rm R].
  assert (Z : slen rm = 0).
  { rewrite R in L at 2. rewrite slen_append in L. lia. }
  destruct rm; [| discriminate]. now rewrite append_nil_r in R.
Qed.

Lemma strip_text_empty : strip_text "" = "".
Proof. reflexivity. Qed.

Lemma settings_loop_eq (n : nat) (st : string * Outputs) :
  settings_loop n st =
  if fst (strip_pass st) =? "" then
    {| ok := true; outputs := snd (strip_pass st); printed := None |}
  else if (slen (fst (strip_pass st)) =? slen (fst st))%nat then
    {| ok := false; outputs := snd (strip_pass st);
       printed := Some ("Unrecognized #pragma settings: " ++ fst (strip_pass st) ++ LF) |}
  else match n with
       | S n' => settings_loop n' (strip_pass st)
       | O => {| ok := false; outputs := snd (strip_pass st); printed := None |}
       end.
Proof. destruct n; reflexivity. Qed.

(** Any number of trips that is at least the length of the text gives the
    same answer. *)
Lemma settings_loop_fuel (n m : nat) (st : string * Outputs) :
  slen (fst st) <= n -> slen (fst st) <= m ->
  settings_loop n st = settings_loop m st.
Proof.
  revert m st. induction n as [|n IH]; intros m st Ln Lm;
    rewrite (settings_loop_eq _ st), (settings_loop_eq m st);
    pose proof (strip_text_le (fst st)) as LE;
    rewrite <- strip_pass_text in LE;
    destruct (fst (strip_pass st) =? "") eqn:E1; try reflexivity;
    destruct (slen (fst (strip_pass st)) =? slen (fst st))%nat eqn:E2;
    try reflexivity; apply Nat.eqb_neq in E2.
  - lia.
  - destruct m as [|m]; [lia |]. apply IH; lia.
Qed.

(** The loop as the source has it: a trip that neither empties the text nor
    leaves its length alone is followed by the next trip. The branch of
    [settings_loop] for an exhausted count does not show. *)
Lemma settings_loop_unfold (st : string * Outputs) :
  settings_loop (slen (fst st)) st =
  if fst (strip_pass st) =? "" then
    {| ok := true; outputs := snd (strip_pass st); printed := None |}
  else if (slen (fst (strip_pass st)) =? slen (fst st))%nat then
    {| ok := false; outputs := snd (strip_pass st);
       printed := Some ("Unrecognized #pragma settings: " ++ fst (strip_pass st) ++ LF) |}
  else settings_loop (slen (fst (strip_pass st))) (strip_pass st).
Proof.
  rewrite settings_loop_eq.
  pose proof (strip_text_le (fst st)) as LE. rewrite <- strip_pass_text in LE.
  destruct (fst (strip_pass st) =? "") eqn:E1; try reflexivity.
  destruct (slen (fst (strip_pass st)) =? slen (fst st))%nat eqn:E2;
    try reflexivity.
  apply Nat.eqb_neq in E2.
  destruct (slen (fst st)) as [|n] eqn:L; [lia |].
  apply settings_loop_fuel; lia.
Qed.

End PassFacts.

(** ** Facts on the tokens *)

Section TokenFacts.

Lemma Pragma_eq_dec (p q : Pragma) : {p = q} + {p <> q}.
Proof. decide equality. decide equality. Qed.

Lemma pragma_suffix_shape (p : Pragma) :
  exists name, pragma_suffix p = String " "%char name /\ space_free name = true.
Proof.
  destruct p as [f| | | | |]; [destruct f |..]; eexists; split; reflexivity.
Qed.

Lemma pragma_suffix_inj (p q : Pragma) :
  pragma_suffix p = pragma_suffix q -> p = q.
Proof.
  destruct p as [f| | | | |]; [destruct f |..];
    (destruct q as [g| | | | |]; [destruct g |..]);
    intros H; first [reflexivity | discriminate H].
Qed.

Lemma pragma_in_order (p : Pragma) : In p pragma_order.
Proof.
  destruct p as [f| | | | |]; [destruct f |..]; unfold pragma_order;
    repeat first [left; reflexivity | right].
Qed.

Lemma pragma_suffix_nonempty (p : Pragma) : 0 < slen (pragma_suffix p).
Proof.
  destruct (pragma_suffix_shape p) as (name & -> & _). simpl. lia.
Qed.

Lemma space_free_append (a b : string) :
  space_free (a ++ String " "%char b) = false.
Proof.
  induction a as [|c a IH]; simpl; [reflexivity |].
  rewrite IH. apply andb_false_r.
Qed.

(** Two ways to cut a text at a space, each leaving no space behind the
    cut, are the same way. *)
Lemma last_space (x r n1 n2 : string) :
  space_free n1 = true -> space_free n2 = true ->
  x ++ String " "%char n1 = r ++ String " "%char n2 ->
  x = r /\ n1 = n2.
Proof.
  intros F1 F2. revert r. induction x as [|c x IH]; intros [|d r] H; simpl in H.
  - injection H as H. now split.
  - injection H as _ H. rewrite H, space_free_append in F1. discriminate.
  - injection H as _ H. rewrite <- H, space_free_append in F2. discriminate.
  - injection H as -> H. destruct (IH _ H) as [-> ->]. now split.
Qed.

Lemma consume_last_same (x : string) (t : Pragma) :
  consumeSuffix (x ++ pragma_suffix t) (pragma_suffix t) = Some x.
Proof. now apply consumeSuffix_Some. Qed.

Lemma consume_last_other (x : string) (t e : Pragma) :
  e <> t -> consumeSuffix (x ++ pragma_suffix t) (pragma_suffix e) = None.
Proof.
  intros N. apply consumeSuffix_None. intros r H.
  destruct (pragma_suffix_shape t) as (n1 & E1 & F1).
  destruct (pragma_suffix_shape e) as (n2 & E2 & F2).
  pose proof H as H'. rewrite E1, E2 in H'.
  destruct (last_space _ _ _ _ F1 F2 H') as [_ Hn].
  apply N. apply pragma_suffix_inj. rewrite E1, E2. now rewrite Hn.
Qed.

Lemma render_app (a b : list Pragma) :
  render (a ++ b)%list = render a ++ render b.
Proof.
  induction a as [|t a IH]; simpl; [reflexivity |].
  now rewrite IH, append_assoc.
Qed.

Lemma render_length (cs : list Pragma) : cs <> [] -> 0 < slen (render cs).
Proof.
  destruct cs as [|c cs]; [congruence |]. intros _. simpl.
  rewrite slen_append. pose proof (pragma_suffix_nonempty c). lia.
Qed.

Lemma inert_empty : inert "".
Proof. intros p. destruct p as [f| | | | |]; [destruct f |..]; reflexivity. Qed.

(** A stretch of the loop body on a text that ends in tokens: some of the
    rightmost tokens [cs] are gone and their effects applied, the rightmost
    first. When the statement for the last token is in the stretch, at least
    that token is gone. *)
Lemma fold_consume_tokens (w : string) (tbl : list Pragma) :
  inert w ->
  forall (ts : list Pragma) (o : Outputs),
  exists ts' cs,
    ts = (ts' ++ cs)%list /\
    fold_left consume_step tbl (w ++ render ts, o) =
      (w ++ render ts', fold_right apply_pragma o cs) /\
    (forall t ts0, ts = (ts0 ++ [t])%list -> In t tbl -> cs <> []).
Proof.
  intros Hw. induction tbl as [|e tbl IH]; intros ts o.
  - exists ts, []. rewrite app_nil_r. repeat split. intros t ts0 _ [].
  - simpl fold_left.
    destruct ts as [|t0 ts1] using rev_ind.
    + unfold consume_step at 2. cbn [fst snd render].
      rewrite append_nil_r, Hw.
      destruct (IH [] o) as (ts' & cs & H1 & H2 & H3).
      exists ts', cs. cbn [render] in H2. rewrite append_nil_r in H2.
      repeat split; try assumption.
      intros t ts0 H. now destruct ts0.
    + clear IHts1. rename t0 into t, ts1 into ts0.
      unfold consume_step at 2. cbn [fst snd].
      rewrite render_app. cbn [render]. rewrite append_nil_r, <- append_assoc.
      destruct (Pragma_eq_dec e t) as [-> | N].
      * rewrite consume_last_same.
        destruct (IH ts0 (apply_pragma t o)) as (ts' & cs & H1 & H2 & _).
        exists ts', (cs ++ [t])%list. repeat split.
        -- now rewrite app_assoc, <- H1.
        -- rewrite H2, fold_right_app. reflexivity.
        -- intros _ _ _ _ H. now destruct cs.
      * rewrite (consume_last_other _ _ _ N).
        destruct (IH (ts0 ++ [t])%list o) as (ts' & cs & H1 & H2 & H3).
        exists ts', cs. repeat split; try assumption.
        -- rewrite <- H2, render_app. cbn [render].
           now rewrite append_nil_r, <- append_assoc.
        -- intros t' ts0' H [He | Hin].
           ++ apply app_inj_tail in H. destruct H as [_ <-]. now destruct N.
           ++ now apply (H3 t' ts0').
Qed.

(** The loop on a text that is an inert front followed by tokens: every
    token is consumed and applied, from the right to the left; the loop
    then ends with success on an empty front and reports the front
    otherwise. *)
Lemma settings_loop_tokens (w : string) (ts : list Pragma) (o : Outputs) :
  inert w ->
  settings_loop (slen (w ++ render ts)) (w ++ render ts, o) =
  if w =? "" then
    {| ok := true; outputs := fold_right apply_pragma o ts; printed := None |}
  else
    {| ok := false; outputs := fold_right apply_pragma o ts;
       printed := Some ("Unrecognized #pragma settings: " ++ w ++ LF) |}.
Proof.
  intros Hw. remember (List.length ts) as n eqn:Hn. revert ts o Hn.
  induction n as [n IH] using lt_wf_ind. intros ts o Hn.
  pose proof (settings_loop_unfold (w ++ render ts, o)) as U.
  cbn [fst snd] in U. rewrite U. clear U. unfold strip_pass.
  destruct (fold_consume_tokens w pragma_order Hw ts o)
    as (ts' & cs & H1 & H2 & H3).
  rewrite H2. cbn [fst snd].
  destruct ts as [|t0 ts1] using rev_ind.
  - destruct ts'; [| discriminate]. destruct cs; [| discriminate].
    cbn [render fold_right]. rewrite !append_nil_r.
    destruct (w =? "") eqn:E; [reflexivity |].
    now rewrite Nat.eqb_refl.
  - clear IHts1.
    assert (Hcs : cs <> []) by (apply (H3 t0 ts1 eq_refl), pragma_in_order).
    pose proof (render_length cs Hcs) as Lcs.
    assert (Lts : slen (w ++ render (ts1 ++ [t0])) =
                  slen (w ++ render ts') + slen (render cs)).
    { rewrite H1, render_app, !slen_append. lia. }
    destruct (w ++ render ts' =? "") eqn:E.
    + apply String.eqb_eq in E.
      destruct w; [| discriminate]. simpl in E.
      destruct ts' as [|t' ts'].
      * simpl in H1. now rewrite H1.
      * exfalso. pose proof (render_length (t' :: ts')) as L.
        rewrite E in L. simpl in L. assert (0 < 0) by (apply L; congruence). lia.
    + destruct (slen (w ++ render ts') =? slen (w ++ render (ts1 ++ [t0])))%nat
        eqn:E2; [apply Nat.eqb_eq in E2; lia |].
      assert (Hlen : List.length ts' < n).
      { rewrite Hn, H1, !length_app. destruct cs; [congruence | simpl; lia]. }
      rewrite (IH _ Hlen ts' _ eq_refl), H1, fold_right_app. reflexivity.
Qed.

Lemma iter_fixed {A : Type} (f : A -> A) (x : A) (n : nat) :
  f x = x -> Nat.iter n f x = x.
Proof. intros F. induction n as [|n IH]; simpl; [reflexivity | now rewrite IH]. Qed.

(** The loop on a text whose stripping gets stuck: it answers false and
    prints the remainder it is stuck on. *)
Lemma settings_loop_stuck (n : nat) (s rem : string) (o : Outputs) :
  Nat.iter n strip_text s = rem -> rem <> "" -> strip_text rem = rem ->
  ok (settings_loop (slen s) (s, o)) = false /\
  printed (settings_loop (slen s) (s, o)) =
    Some ("Unrecognized #pragma settings: " ++ rem ++ LF).
Proof.
  revert s o. induction n as [|n IH]; intros s o It Ne Fix;
    pose proof (settings_loop_unfold (s, o)) as U; cbn [fst snd] in U;
    rewrite U; clear U;
    pose proof (strip_pass_text (s, o)) as T; cbn [fst] in T; rewrite T.
  - simpl in It. subst rem. rewrite Fix.
    destruct (s =? "") eqn:E; [apply String.eqb_eq in E; congruence |].
    rewrite Nat.eqb_refl. now split.
  - rewrite Nat.iter_succ_r in It.
    destruct (strip_text s =? "") eqn:E.
    + apply String.eqb_eq in E. rewrite E in It.
      rewrite (iter_fixed strip_text "" n strip_text_empty) in It. congruence.
    + destruct (slen (strip_text s) =? slen s)%nat eqn:E2.
      * apply Nat.eqb_eq, strip_text_same_length in E2.
        rewrite E2 in It. rewrite (iter_fixed strip_text s n E2) in It. subst rem.
        cbn [ok printed]. rewrite E2. split; reflexivity.
      * destruct (strip_pass (s, o)) as [s1 o1] eqn:P. cbn [fst] in T. subst s1.
        exact (IH _ o1 It Ne Fix).
Qed.

End TokenFacts.

(** ** Facts on searching *)

Section SearchFacts.

Lemma starts_with_iff (s p : string) :
  starts_with s p = true <-> exists b, s = p ++ b.
Proof.
  revert s. induction p as [|a p IH]; intros s; simpl.
  - split; [intros _; now exists s | reflexivity].
  - destruct s as [|c s]; simpl.
    + split; [discriminate | intros [b H]; discriminate H].
    + rewrite andb_true_iff, Ascii.eqb_eq, IH. split.
      * intros [-> [b ->]]. now exists b.
      * intros [b H]. injection H as -> ->. split; [reflexivity | now exists b].
Qed.

Lemma strstr_eq (h n : string) :
  strstr h n =
  if starts_with h n then Some h
  else match h with
       | EmptyString => None
       | String _ h' => strstr h' n
       end.
Proof. destruct h; reflexivity. Qed.

Lemma strstr_Some (h n t : string) :
  strstr h n = Some t -> exists a b, h = a ++ t /\ t = n ++ b.
Proof.
  induction h as [|c h IH]; rewrite strstr_eq;
    destruct (starts_with _ n) eqn:S; try discriminate.
  - intros [= <-]. apply starts_with_iff in S. destruct S as [b S].
    now exists "", b.
  - intros [= <-]. apply starts_with_iff in S. destruct S as [b S].
    now exists "", b.
  - intros H. destruct (IH H) as (a & b & -> & ->).
    now exists (String c a), b.
Qed.

Lemma strstr_occurs (h n t : string) : strstr h n = Some t -> occurs n h.
Proof.
  intros H. destruct (strstr_Some _ _ _ H) as (a & b & -> & ->). now exists a, b.
Qed.

Lemma strstr_None (h n : string) : strstr h n = None -> ~ occurs n h.
Proof.
  induction h as [|c h IH]; rewrite strstr_eq;
    destruct (starts_with _ n) eqn:S; try discriminate; intros H (a & b & E).
  - assert (S' : starts_with "" n = true).
    { apply starts_with_iff. destruct a; [| discriminate].
      simpl in E. now exists b. }
    congruence.
  - destruct a as [|c' a].
    + simpl in E. assert (S' : starts_with (String c h) n = true)
        by (apply starts_with_iff; now exists b).
      congruence.
    + simpl in E. injection E as _ E. apply (IH H). now exists a, b.
Qed.

Lemma occurs_in_tail (x a b : string) : occurs x b -> occurs x (a ++ b).
Proof.
  intros (p & q & ->). exists (a ++ p), q. now rewrite append_assoc.
Qed.

Lemma occurs_in_front (x a b : string) : occurs x a -> occurs x (a ++ b).
Proof.
  intros (p & q & ->). exists p, (q ++ b). now rewrite !append_assoc.
Qed.

Lemma c_str_front (s : string) : exists rest, s = c_str s ++ rest.
Proof.
  induction s as [|c s [rest IH]]; simpl.
  - now exists "".
  - destruct (Ascii.eqb c NUL).
    + now exists (String c s).
    + exists rest. simpl. now rewrite <- IH.
Qed.

Lemma advance_marker (b : string) :
  advance (slen kPragmaSettings - 1) (kPragmaSettings ++ b) = String " "%char b.
Proof. reflexivity. Qed.

(** Without the marker in the text there is no settings text. *)
Lemma settings_text_no_marker (text : string) :
  ~ occurs kPragmaSettings text -> settings_text text = None.
Proof.
  intros N. unfold settings_text, settings_of_c_str.
  destruct (strstr (c_str text) kPragmaSettings) as [found|] eqn:F;
    [| reflexivity].
  exfalso. apply N. destruct (c_str_front text) as [rest R]. rewrite R.
  apply occurs_in_front. exact (strstr_occurs _ _ _ F).
Qed.

(** Without a terminator behind the marker there is no settings text. *)
Lemma settings_text_no_terminator (text : string) :
  (forall a b, text = a ++ kPragmaSettings ++ b -> ~ occurs "*/" b) ->
  settings_text text = None.
Proof.
  intros N. unfold settings_text, settings_of_c_str.
  destruct (strstr (c_str text) kPragmaSettings) as [found|] eqn:F;
    [| reflexivity].
  destruct (strstr_Some _ _ _ F) as (a & b & Ha & ->).
  rewrite advance_marker. unfold text_before_terminator.
  destruct (strstr (String " "%char b) "*/") as [e|] eqn:T; [| reflexivity].
  exfalso. destruct (c_str_front text) as [rest R].
  apply (N a (b ++ rest)).
  - rewrite R, Ha. now rewrite !append_assoc.
  - apply occurs_in_front.
    destruct (strstr_Some _ _ _ T) as (p & q & Hp & ->).
    destruct p as [|c p]; simpl in Hp; [discriminate Hp |].
    injection Hp as _ ->. now exists p, q.
Qed.

End SearchFacts.

Section JobFacts.

Variables W P : Type.
Variable E : Env W P.

Lemma processCommand_honors (args : list string) :
  honors args -> processCommand E args = run_job E args true.
Proof.
  unfold processCommand. intros [L | [L F]]; rewrite L; simpl.
  - reflexivity.
  - rewrite F. reflexivity.
Qed.

Lemma processCommand_nosettings (args : list string) :
  List.length args = 4 -> nth 3 args "" = "--nosettings" ->
  processCommand E args = run_job E args false.
Proof.
  unfold processCommand. intros L F. rewrite L, F. reflexivity.
Qed.

(** With [--nosettings] the pragma parser is not run: the job goes on to
    the backend with the default settings and the standalone
    capabilities, whatever the text holds. *)
Lemma nosettings_skips_parser (args : list string) (kind : Kind) (text : string)
    (w w1 : W) :
  List.length args = 4 -> nth 3 args "" = "--nosettings" ->
  input_kind (nth 1 args "") = Some kind ->
  read_input E (nth 1 args "") w = (Some text, w1) ->
  processCommand E args w =
    run_backend E (nth 1 args "") (nth 2 args "")
      {| settings := default_settings (kDefaultInlineThreshold E)
                       (kDefaultReplaceSettings E);
         caps := standaloneCaps |}
      kind text w1.
Proof.
  intros L F K R. rewrite (processCommand_nosettings args L F).
  unfold run_job. rewrite K. unfold bind at 1. now rewrite R.
Qed.

End JobFacts.

(** ** Facts on the batch *)

Section BatchFacts.

Variables W P : Type.
Variable E : Env W P.
Variable argv0 : string.

Lemma max_code_cases (a b : ResultCode) :
  (max_code a b = a \/ max_code a b = b) /\
  (code a <= code (max_code a b))%Z /\ (code b <= code (max_code a b))%Z.
Proof. destruct a, b; cbv; intuition congruence. Qed.

Lemma fold_max_bounds (l : list ResultCode) (rc : ResultCode) :
  (code rc <= code (fold_left max_code l rc))%Z /\
  (forall r, In r l -> (code r <= code (fold_left max_code l rc))%Z) /\
  (fold_left max_code l rc = rc \/ In (fold_left max_code l rc) l).
Proof.
  revert rc. induction l as [|x l IH]; intros rc; simpl.
  - split; [lia | split; [intros r [] | now left]].
  - destruct (IH (max_code rc x)) as (B1 & B2 & B3).
    destruct (max_code_cases rc x) as (C1 & C2 & C3).
    split; [| split].
    + lia.
    + intros r [<- | H]; [lia | now apply B2].
    + destruct B3 as [B3 | B3]; [| now right; right].
      rewrite B3. destruct C1 as [-> | ->]; [now left | now right; left].
Qed.

Lemma split_jobs_segment (seg cur : list string) :
  ~ In "--" seg -> (rev cur ++ seg)%list <> [] ->
  split_jobs argv0 cur seg = [argv0 :: (rev cur ++ seg)%list].
Proof.
  revert cur. induction seg as [|a seg IH]; intros cur N Ne; simpl.
  - rewrite app_nil_r in *. destruct cur; [now destruct Ne | reflexivity].
  - destruct (a =? "--") eqn:D.
    + apply String.eqb_eq in D. destruct N. now left.
    + rewrite IH.
      * simpl. now rewrite <- app_assoc.
      * intros H. apply N. now right.
      * simpl. rewrite <- app_assoc. simpl. now destruct (rev cur).
Qed.

Lemma split_jobs_delimiter (pre cur seg : list string) :
  split_jobs argv0 cur (pre ++ "--" :: seg)%list =
  (split_jobs argv0 cur pre ++ split_jobs argv0 [] seg)%list.
Proof.
  revert cur. induction pre as [|a pre IH]; intros cur; simpl.
  - now destruct cur.
  - destruct (a =? "--"); [destruct cur |]; simpl; now rewrite IH.
Qed.

(** The loop of [main] and the statement behind it, started in the middle
    of the argument vector: [cur] holds the arguments of the command read so
    far and [rc] the worst outcome so far. *)
Lemma main_loop_jobs (argv cur : list string) (rc : ResultCode) (w : W) :
  (st <- main_loop E argv (argv0 :: rev cur) rc ;;
   if (1 <? List.length (fst st))%nat then
     outcome <- processCommand E (fst st) ;;
     ret (code (max_code (snd st) outcome))
   else ret (code (snd st))) w =
  (outcomes <- run_jobs E (split_jobs argv0 cur argv) ;;
   ret (code (fold_left max_code outcomes rc))) w.
Proof.
  revert cur rc w. induction argv as [|arg rest IH]; intros cur rc w.
  - destruct cur as [|c cur].
    + reflexivity.
    + cbn [main_loop split_jobs]. unfold bind at 1. unfold ret at 1.
      cbn [fst snd List.length]. cbn [rev]. rewrite length_app.
      cbn [List.length]. rewrite Nat.add_comm. cbn [Nat.add Nat.ltb Nat.leb].
      unfold bind, ret. cbn [run_jobs]. unfold bind, ret.
      destruct (processCommand E (argv0 :: (rev cur ++ [c])%list) w).
      reflexivity.
  - cbn [main_loop split_jobs].
    destruct (arg =? "--") eqn:D; cbn [negb].
    + destruct cur as [|c cur].
      * cbn [rev List.length Nat.ltb Nat.leb]. apply (IH [] rc w).
      * assert (L : (1 <? List.length (argv0 :: rev (c :: cur)))%nat = true).
        { cbn [rev List.length]. rewrite length_app. cbn [List.length].
          rewrite Nat.add_comm. reflexivity. }
        rewrite L. cbn [run_jobs firstn].
        unfold bind at 1 2. unfold bind at 2 3.
        destruct (processCommand E (argv0 :: rev (c :: cur)) w) as [o w'].
        pose proof (IH [] (max_code rc o) w') as H.
        unfold bind at 1 2 in H. cbn [rev] in H. unfold bind at 1.
        rewrite H. unfold bind, ret.
        destruct (run_jobs E (split_jobs argv0 [] rest) w'). reflexivity.
    + apply (IH (arg :: cur) rc w).
Qed.

End BatchFacts.

(** ** Facts on suffixes *)

Section SuffixFacts.

Lemma append_inv_tail (a b c d : string) :
  a ++ b = c ++ d -> slen b = slen d -> a = c /\ b = d.
Proof.
  intros H L. apply append_inv_len; [exact H |].
  apply (f_equal slen) in H. rewrite !slen_append in H. lia.
Qed.

(** Of two suffixes of one text, the shorter is a suffix of the longer. *)
Lemma endsWith_both (s a b : string) :
  endsWith s a = true -> endsWith s b = true -> slen b <= slen a ->
  endsWith a b = true.
Proof.
  intros Ha Hb L. apply endsWith_iff in Ha, Hb.
  destruct Ha as [r ->]. destruct Hb as [r' H].
  pose proof (substring_split a (slen a - slen b) ltac:(lia)) as S.
  pose proof (slen_substring_0 a (slen a - slen b) ltac:(lia)) as L1.
  remember (substring 0 (slen a - slen b) a) as a1 eqn:E1.
  remember (substring (slen a - slen b) (slen a - (slen a - slen b)) a) as a2 eqn:E2.
  assert (L2 : slen a2 = slen b).
  { apply (f_equal slen) in S. rewrite slen_append in S. lia. }
  rewrite <- S, <- append_assoc in H.
  destruct (append_inv_tail _ _ _ _ H L2) as [_ <-].
  apply endsWith_iff. exists a1. now rewrite S.
Qed.

Lemma endsWith_exclusive (s a b : string) :
  endsWith a b = false -> endsWith b a = false ->
  endsWith s a = true -> endsWith s b = false.
Proof.
  intros Nab Nba Ha. destruct (endsWith s b) eqn:Hb; [| reflexivity].
  destruct (Nat.le_ge_cases (slen b) (slen a)) as [L | L].
  - rewrite (endsWith_both s a b Ha Hb L) in Nab. discriminate.
  - rewrite (endsWith_both s b a Hb Ha L) in Nba. discriminate.
Qed.

Lemma endsWith_append (stem suffix : string) : endsWith (stem ++ suffix) suffix = true.
Proof. apply endsWith_iff. now exists stem. Qed.

Lemma endsWith_false (s suffix : string) :
  (forall stem, s <> stem ++ suffix) -> endsWith s suffix = false.
Proof.
  intros N. destruct (endsWith s suffix) eqn:H; [| reflexivity].
  apply endsWith_iff in H. destruct H as [r H]. now destruct (N r).
Qed.

End SuffixFacts.

Ltac other_suffix :=
  match goal with
  | |- context [endsWith (?stem ++ ?a) ?b] =>
      rewrite (endsWith_exclusive (stem ++ a) a b)
        by first [reflexivity | apply endsWith_append]
  end.

(** ** Facts on [base_name] *)

Section BaseNameFacts.

Lemma get_in_range (s : string) (i : nat) : i < slen s -> exists c, get i s = Some c.
Proof.
  revert i. induction s as [|c s IH]; intros i L; simpl in L; [lia |].
  destruct i as [|i]; simpl; [now exists c | apply IH; lia].
Qed.

Lemma back_up_spec (s : string) (k : nat) :
  k <= slen s ->
  back_up s k <= k /\
  (back_up s k = 0 \/
   exists c, get (back_up s k - 1) s = Some c /\ is_separator c = true) /\
  (forall i, back_up s k <= i -> i < k ->
             exists c, get i s = Some c /\ is_separator c = false).
Proof.
  induction k as [|k IH]; intros L; simpl.
  - split; [lia | split; [now left | intros i; lia]].
  - destruct (get_in_range s k ltac:(lia)) as [c G]. rewrite G.
    destruct (is_separator c) eqn:Sep.
    + split; [lia | split].
      * right. exists c. simpl. now rewrite Nat.sub_0_r.
      * intros i; lia.
    + destruct (IH ltac:(lia)) as (B1 & B2 & B3).
      split; [lia | split; [exact B2 |]].
      intros i Li Lk. destruct (Nat.eq_dec i k) as [-> | N].
      * now exists c.
      * apply B3; lia.
Qed.

Lemma advance_get (s : string) (j i : nat) : get i (advance j s) = get (j + i) s.
Proof.
  revert s. induction j as [|j IH]; intros s; [reflexivity |].
  destruct s as [|c s]; simpl; [now destruct i | apply IH].
Qed.

Lemma advance_split (s : string) (j : nat) :
  j <= slen s -> s = substring 0 j s ++ advance j s.
Proof.
  revert s. induction j as [|j IH]; intros s L.
  - simpl. now destruct s.
  - destruct s as [|c s]; simpl in *; [lia |]. now rewrite <- IH by lia.
Qed.

Lemma advance_length (s : string) (j : nat) : slen (advance j s) = slen s - j.
Proof.
  revert s. induction j as [|j IH]; intros s; simpl.
  - now rewrite Nat.sub_0_r.
  - destruct s as [|c s]; simpl; [reflexivity | apply IH].
Qed.

Lemma separator_free_get (t : string) :
  (forall i, i < slen t -> exists c, get i t = Some c /\ is_separator c = false) ->
  separator_free t = true.
Proof.
  induction t as [|c t IH]; intros H; [reflexivity |]. simpl.
  destruct (H 0 ltac:(simpl; lia)) as (c' & G & Sep). simpl in G.
  injection G as <-. rewrite Sep. simpl. apply IH.
  intros i L. apply (H (S i)). simpl. lia.
Qed.

Lemma substring_snoc (s : string) (n : nat) (c : ascii) :
  get n s = Some c ->
  substring 0 (S n) s = substring 0 n s ++ String c "".
Proof.
  revert s. induction n as [|n IH]; intros s G; destruct s as [|x s];
    try discriminate; simpl in G.
  - injection G as ->. simpl. now destruct s.
  - change (substring 0 (S (S n)) (String x s))
      with (String x (substring 0 (S n) s)).
    rewrite (IH _ G). reflexivity.
Qed.

(** The file name part of a path: what follows the last separator, or the
    whole path when it has none. *)
Lemma file_name_spec (fpPath : string) :
  exists dir,
    fpPath = dir ++ file_name fpPath /\
    separator_free (file_name fpPath) = true /\
    (dir = "" \/ exists d c, dir = d ++ String c "" /\ is_separator c = true).
Proof.
  unfold file_name.
  destruct (back_up_spec fpPath (slen fpPath) (le_n _)) as (B1 & B2 & B3).
  remember (back_up fpPath (slen fpPath)) as j eqn:J.
  exists (substring 0 j fpPath). split; [| split].
  - now apply advance_split.
  - apply separator_free_get. intros i L. rewrite advance_length in L.
    rewrite advance_get. apply B3; lia.
  - destruct B2 as [-> | (c & G & Sep)].
    + left. now destruct fpPath.
    + destruct j as [|j].
      * left. now destruct fpPath.
      * right. simpl in G. rewrite Nat.sub_0_r in G.
        exists (substring 0 j fpPath), c. split; [| exact Sep].
        now apply substring_snoc.
Qed.

Lemma starts_with_false (s p : string) :
  (forall rest, s <> p ++ rest) -> starts_with s p = false.
Proof.
  intros N. destruct (starts_with s p) eqn:H; [| reflexivity].
  apply starts_with_iff in H. destruct H as [b H]. now destruct (N b).
Qed.

Lemma append_eq_append (a b c d : string) :
  a ++ b = c ++ d ->
  (exists x, a = c ++ x /\ d = x ++ b) \/ (exists x, c = a ++ x /\ b = x ++ d).
Proof.
  revert c. induction a as [|y a IH]; intros c H.
  - right. exists c. now split.
  - destruct c as [|y' c].
    + left. exists (String y a). now split.
    + simpl in H. injection H as -> H.
      destruct (IH _ H) as [(x & -> & ->) | (x & -> & ->)];
        [left | right]; exists x; now split.
Qed.

Lemma separator_free_append (a b : string) :
  separator_free (a ++ b) = separator_free a && separator_free b.
Proof.
  induction a as [|c a IH]; simpl; [reflexivity |].
  now rewrite IH, andb_assoc.
Qed.

Lemma snoc_cases (x : string) :
  x = "" \/ exists x' l, x = x' ++ String l "".
Proof.
  induction x as [|c x [-> | (x' & l & ->)]].
  - now left.
  - right. now exists "", c.
  - right. now exists (String c x'), l.
Qed.

(** A separator-free text behind a front that is empty or ends in a
    separator is cut off at one place only. *)
Lemma file_part_unique (d1 f1 d2 f2 : string) :
  d1 ++ f1 = d2 ++ f2 ->
  separator_free f1 = true -> separator_free f2 = true ->
  (d1 = "" \/ exists d c, d1 = d ++ String c "" /\ is_separator c = true) ->
  (d2 = "" \/ exists d c, d2 = d ++ String c "" /\ is_separator c = true) ->
  d1 = d2 /\ f1 = f2.
Proof.
  assert (Half : forall d1 f1 d2 f2 x,
            d1 = d2 ++ x -> f2 = x ++ f1 -> separator_free f2 = true ->
            (d1 = "" \/ exists d c, d1 = d ++ String c "" /\ is_separator c = true) ->
            x = "").
  { intros a f b g x -> -> F [E | (d & c & E & Sep)].
    - destruct b; [exact E | discriminate E].
    - destruct (snoc_cases x) as [-> | (x' & l & ->)]; [reflexivity |].
      rewrite <- append_assoc in E.
      destruct (append_inv_tail _ _ _ _ E eq_refl) as [_ [= ->]].
      rewrite !separator_free_append in F. simpl in F. rewrite Sep in F.
      simpl in F. rewrite andb_false_r in F. discriminate F. }
  intros H F1 F2 D1 D2.
  destruct (append_eq_append _ _ _ _ H) as [(x & Hd & Hf) | (x & Hd & Hf)].
  - pose proof (Half _ _ _ _ x Hd Hf F2 D1) as ->.
    rewrite append_nil_r in Hd. simpl in Hf. now split.
  - pose proof (Half _ _ _ _ x Hd Hf F1 D2) as ->.
    rewrite append_nil_r in Hd. simpl in Hf. now split.
Qed.

(** [base_name] of a path made of a directory part, the prefix, a base and
    the suffix is the base. *)
Lemma base_name_of_parts (dir prefix base suffix : string) :
  separator_free (prefix ++ base ++ suffix) = true ->
  (dir = "" \/ exists d c, dir = d ++ String c "" /\ is_separator c = true) ->
  base_name (dir ++ prefix ++ base ++ suffix) prefix suffix = base.
Proof.
  intros F D. remember (dir ++ prefix ++ base ++ suffix) as fpPath eqn:Path.
  destruct (file_name_spec fpPath) as (dir' & P' & F' & D').
  assert (U : dir' = dir /\ file_name fpPath = prefix ++ base ++ suffix).
  { apply file_part_unique; try assumption. now rewrite <- P'. }
  destruct U as [-> Name].
  pose proof (back_up_spec fpPath (slen fpPath) (le_n _)) as (B & _ & _).
  assert (J : back_up fpPath (slen fpPath) = slen dir).
  { pose proof (advance_length fpPath (back_up fpPath (slen fpPath))) as L.
    change (advance (back_up fpPath (slen fpPath)) fpPath)
      with (file_name fpPath) in L.
    rewrite Name in L. apply (f_equal slen) in Path.
    rewrite !slen_append in *. lia. }
  unfold base_name.
  change (advance (back_up fpPath (slen fpPath)) fpPath) with (file_name fpPath).
  change (end_matches fpPath suffix) with (endsWith fpPath suffix).
  assert (S1 : starts_with (file_name fpPath) prefix = true)
    by (apply starts_with_iff; now exists (base ++ suffix)).
  assert (S2 : endsWith fpPath suffix = true).
  { apply endsWith_iff. exists (dir ++ prefix ++ base).
    now rewrite Path, !append_assoc. }
  rewrite S1, S2, J. cbn [andb].
  replace (slen fpPath - slen dir - slen prefix - slen suffix) with (slen base)
    by (rewrite Path, !slen_append; lia).
  rewrite Path, <- (append_assoc dir prefix), <- slen_append.
  rewrite substring_skip_append. apply substring_0_append.
Qed.

End BaseNameFacts.

(** ** Facts on the effects of tokens *)

Section EffectFacts.

Lemma caps_fold_right (ts : list Pragma) (o : Outputs) :
  caps (fold_right apply_pragma o ts) =
  match first_caps ts with
  | Some f => staticCaps f
  | None => caps o
  end.
Proof.
  induction ts as [|t ts IH]; [reflexivity |].
  destruct t; simpl; try exact IH. reflexivity.
Qed.

Lemma first_caps_counted (ts : list Pragma) :
  0 < count_caps ts -> exists f, first_caps ts = Some f.
Proof.
  induction ts as [|t ts IH]; simpl; [lia |].
  destruct t; try exact IH. intros _. now eexists.
Qed.

(** What the parser does with a settings text that is an inert front
    followed by tokens. *)
Lemma detect_tokens (text w : string) (ts : list Pragma) (o : Outputs) :
  settings_text text = Some (w ++ render ts) -> inert w ->
  detect_shader_settings text o =
  if w =? "" then
    {| ok := true; outputs := fold_right apply_pragma o ts; printed := None |}
  else
    {| ok := false; outputs := fold_right apply_pragma o ts;
       printed := Some ("Unrecognized #pragma settings: " ++ w ++ LF) |}.
Proof.
  intros T Hw. unfold detect_shader_settings. rewrite T.
  exact (settings_loop_tokens w ts o Hw).
Qed.

End EffectFacts.

(** ** Facts on the pragma comment inside a larger text *)

Section ContextFacts.

Lemma c_str_append (a b : string) :
  c_str (a ++ b) = if nul_free a then a ++ c_str b else c_str a.
Proof.
  induction a as [|c a IH]; simpl; [reflexivity |].
  destruct (Ascii.eqb c NUL); simpl; [reflexivity |].
  rewrite IH. now destruct (nul_free a).
Qed.

Lemma starts_with_front (a y p : string) :
  slen p <= slen a -> starts_with (a ++ y) p = starts_with a p.
Proof.
  revert a. induction p as [|x p IH]; intros a L; [reflexivity |].
  destruct a as [|c a]; simpl in L; [lia |]. simpl.
  rewrite IH by lia. reflexivity.
Qed.

Lemma advance_append (a b : string) (n : nat) :
  n <= slen a -> advance n (a ++ b) = advance n a ++ b.
Proof.
  revert a. induction n as [|n IH]; intros a L.
  - now destruct a.
  - destruct a as [|c a]; simpl in L; [lia |]. simpl. apply IH. lia.
Qed.

Lemma advance_suffix (s : string) (n : nat) : exists z, s = z ++ advance n s.
Proof.
  revert s. induction n as [|n IH]; intros s; [now exists "" |].
  destruct s as [|c s]; [now exists "" |].
  destruct (IH s) as [z Hz]. exists (String c z). simpl. now rewrite <- Hz.
Qed.

Lemma text_before_terminator_here (h : string) :
  starts_with h "*/" = true -> text_before_terminator h = Some "".
Proof.
  intros S. unfold text_before_terminator. rewrite strstr_eq, S.
  rewrite Nat.sub_diag. now destruct h.
Qed.

Lemma text_before_terminator_later (c : ascii) (h : string) :
  starts_with (String c h) "*/" = false ->
  text_before_terminator (String c h) =
  option_map (String c) (text_before_terminator h).
Proof.
  intros Hs. unfold text_before_terminator. rewrite strstr_eq, Hs.
  destruct (strstr h "*/") as [e|] eqn:F; [| reflexivity].
  destruct (strstr_Some _ _ _ F) as (a & b & Ha & _).
  assert (Le : slen e <= slen h) by (rewrite Ha, slen_append; lia).
  change (slen (String c h)) with (S (slen h)).
  replace (S (slen h) - slen e) with (S (slen h - slen e)) by lia.
  reflexivity.
Qed.

Lemma text_before_terminator_found (a z : string) :
  star_free a = true -> text_before_terminator (a ++ "*/" ++ z) = Some a.
Proof.
  intros F. induction a as [|c a IH].
  - now apply text_before_terminator_here.
  - simpl in F. apply andb_true_iff in F. destruct F as [F1 F2].
    change (String c a ++ "*/" ++ z) with (String c (a ++ "*/" ++ z)).
    rewrite text_before_terminator_later.
    + now rewrite (IH F2).
    + simpl. apply negb_true_iff in F1. now rewrite F1.
Qed.

Lemma settings_of_c_str_later (c : ascii) (h : string) :
  starts_with (String c h) kPragmaSettings = false ->
  settings_of_c_str (String c h) = settings_of_c_str h.
Proof.
  intros S. unfold settings_of_c_str. now rewrite strstr_eq, S.
Qed.

Lemma settings_of_c_str_here (h : string) :
  starts_with h kPragmaSettings = true ->
  settings_of_c_str h =
  text_before_terminator (advance (slen kPragmaSettings - 1) h).
Proof.
  intros S. unfold settings_of_c_str. now rewrite strstr_eq, S.
Qed.

(** No token is the end of the marker, and the marker without its last
    space is the end of no token. *)
Lemma marker_is_no_token (p : Pragma) :
  endsWith "/*#pragma settings" (pragma_suffix p) = false /\
  endsWith (pragma_suffix p) "/*#pragma settings" = false.
Proof.
  destruct p as [f| | | | |]; [destruct f |..]; split; reflexivity.
Qed.

(** A piece of text that ends where the marker ends, its last space left
    out, is a front that no token matches. *)
Lemma inert_before_marker_end (x : string) (n : nat) :
  inert (advance n (x ++ "/*#pragma settings")).
Proof.
  intros p.
  destruct (consumeSuffix (advance n (x ++ "/*#pragma settings")) (pragma_suffix p))
    as [r|] eqn:C; [| reflexivity].
  exfalso. apply consumeSuffix_Some in C.
  destruct (marker_is_no_token p) as [N1 N2].
  destruct (advance_suffix (x ++ "/*#pragma settings") n) as [z Hz].
  rewrite C, <- append_assoc in Hz.
  pose proof (endsWith_exclusive (x ++ "/*#pragma settings")
                "/*#pragma settings" (pragma_suffix p) N1 N2
                (endsWith_append x "/*#pragma settings")) as X.
  assert (Y : endsWith (x ++ "/*#pragma settings") (pragma_suffix p) = true)
    by (apply endsWith_iff; now exists (z ++ r)).
  congruence.
Qed.

End ContextFacts.

Section OrderFacts.

Variables b1 b2 : string.
Hypothesis star_free_b1 : star_free (String " "%char b1) = true.
Hypothesis star_free_b2 : star_free (String " "%char b2) = true.

(** Two texts that differ only in the body of the comment in front of the
    same terminator: either the terminator search ends in the common front
    [v], with the same answer, or it ends at the terminator of the
    comment. *)
Lemma before_terminator_ctx (v z : string) :
  text_before_terminator (v ++ String " "%char b1 ++ "*/" ++ z) =
  text_before_terminator (v ++ String " "%char b2 ++ "*/" ++ z) \/
  (text_before_terminator (v ++ String " "%char b1 ++ "*/" ++ z) =
     Some (v ++ String " "%char b1) /\
   text_before_terminator (v ++ String " "%char b2 ++ "*/" ++ z) =
     Some (v ++ String " "%char b2)).
Proof.
  induction v as [|c v IH].
  - right. split; now apply text_before_terminator_found.
  - change (String c v ++ String " "%char b1 ++ "*/" ++ z)
      with (String c (v ++ String " "%char b1 ++ "*/" ++ z)).
    change (String c v ++ String " "%char b2 ++ "*/" ++ z)
      with (String c (v ++ String " "%char b2 ++ "*/" ++ z)).
    assert (Same : starts_with (String c (v ++ String " "%char b1 ++ "*/" ++ z)) "*/" =
                   starts_with (String c (v ++ String " "%char b2 ++ "*/" ++ z)) "*/")
      by (destruct v; reflexivity).
    destruct (starts_with (String c (v ++ String " "%char b1 ++ "*/" ++ z)) "*/")
      eqn:Hs; symmetry in Same.
    + left. now rewrite !text_before_terminator_here.
    + rewrite !text_before_terminator_later by assumption.
      destruct IH as [IH | [IH1 IH2]].
      * left. now rewrite IH.
      * right. rewrite IH1, IH2. split; reflexivity.
Qed.

(** The same for the search of the marker: either both texts have the same
    settings text, or each has its own body behind a common front that no
    token matches. *)
Lemma settings_ctx (pre z : string) :
  settings_of_c_str (pre ++ "/*#pragma settings" ++ String " "%char b1 ++ "*/" ++ z) =
  settings_of_c_str (pre ++ "/*#pragma settings" ++ String " "%char b2 ++ "*/" ++ z) \/
  exists u0,
    inert u0 /\
    settings_of_c_str (pre ++ "/*#pragma settings" ++ String " "%char b1 ++ "*/" ++ z) =
      Some (u0 ++ String " "%char b1) /\
    settings_of_c_str (pre ++ "/*#pragma settings" ++ String " "%char b2 ++ "*/" ++ z) =
      Some (u0 ++ String " "%char b2).
Proof.
  induction pre as [|c pre IH].
  - right. exists "". split; [exact inert_empty |].
    split; (rewrite settings_of_c_str_here by reflexivity;
            now apply text_before_terminator_found).
  - assert (Shape : forall b,
              String c pre ++ "/*#pragma settings" ++ String " "%char b ++ "*/" ++ z =
              String c (pre ++ kPragmaSettings) ++ (b ++ "*/" ++ z)).
    { intros b. simpl. f_equal.
      change ("/*#pragma settings" ++ String " "%char b ++ "*/" ++ z)
        with (kPragmaSettings ++ (b ++ "*/" ++ z)).
      now rewrite append_assoc. }
    assert (Front : forall b,
              starts_with (String c (pre ++ kPragmaSettings) ++ (b ++ "*/" ++ z))
                kPragmaSettings =
              starts_with (String c (pre ++ kPragmaSettings)) kPragmaSettings).
    { intros b. apply starts_with_front. simpl. rewrite slen_append. simpl. lia. }
    destruct (starts_with (String c (pre ++ kPragmaSettings)) kPragmaSettings) eqn:Hs.
    + assert (Ptr : forall b,
                advance (slen kPragmaSettings - 1)
                  (String c (pre ++ kPragmaSettings) ++ (b ++ "*/" ++ z)) =
                advance 18 (String c pre ++ "/*#pragma settings") ++
                  String " "%char b ++ "*/" ++ z).
      { intros b.
        change (String c (pre ++ kPragmaSettings))
          with (String c pre ++ ("/*#pragma settings" ++ " ")).
        rewrite <- (append_assoc (String c pre)), (append_assoc _ " ").
        change (slen kPragmaSettings - 1) with 18.
        rewrite advance_append; [reflexivity |].
        rewrite slen_append. simpl. lia. }
      destruct (before_terminator_ctx
                  (advance 18 (String c pre ++ "/*#pragma settings")) z)
        as [Eq | [Eq1 Eq2]].
      * left. rewrite !Shape.
        rewrite !settings_of_c_str_here by (now rewrite Front).
        now rewrite !Ptr.
      * right. exists (advance 18 (String c pre ++ "/*#pragma settings")).
        split; [apply inert_before_marker_end |].
        rewrite !Shape.
        rewrite !settings_of_c_str_here by (now rewrite Front).
        rewrite !Ptr. now split.
    + assert (Later : forall b,
                settings_of_c_str
                  (String c pre ++ "/*#pragma settings" ++ String " "%char b ++ "*/" ++ z) =
                settings_of_c_str
                  (pre ++ "/*#pragma settings" ++ String " "%char b ++ "*/" ++ z)).
      { intros b.
        change (String c pre ++ "/*#pragma settings" ++ String " "%char b ++ "*/" ++ z)
          with (String c (pre ++ "/*#pragma settings" ++ String " "%char b ++ "*/" ++ z)).
        apply settings_of_c_str_later.
        change (String c (pre ++ "/*#pragma settings" ++ String " "%char b ++ "*/" ++ z))
          with (String c pre ++ "/*#pragma settings" ++ String " "%char b ++ "*/" ++ z).
        now rewrite Shape, Front. }
      rewrite !Later. exact IH.
Qed.

End OrderFacts.

(** ** Facts on the shape of settings texts *)

Section ShapeFacts.

Lemma consumable_or_inert (s : string) :
  inert s \/ exists p r, consumeSuffix s (pragma_suffix p) = Some r.
Proof.
  assert (G : forall l : list Pragma,
            (forall p, In p l -> consumeSuffix s (pragma_suffix p) = None) \/
            exists p r, consumeSuffix s (pragma_suffix p) = Some r).
  { induction l as [|q l [IH | IH]].
    - left. intros p [].
    - destruct (consumeSuffix s (pragma_suffix q)) as [r|] eqn:C.
      + right. now exists q, r.
      + left. intros p [<- | H]; [exact C | now apply IH].
    - now right. }
  destruct (G pragma_order) as [H | H]; [left | now right].
  intros p. apply H, pragma_in_order.
Qed.

(** Every text is, in one way, a front that no token matches followed by
    tokens. *)
Lemma settings_text_shape (s : string) :
  exists w ts, s = w ++ render ts /\ inert w.
Proof.
  remember (slen s) as n eqn:Hn. revert s Hn.
  induction n as [n IH] using lt_wf_ind. intros s Hn.
  destruct (consumable_or_inert s) as [I | (p & r & C)].
  - exists s, []. simpl. now rewrite append_nil_r.
  - pose proof (consumeSuffix_shorter _ _ _ C) as L.
    pose proof (pragma_suffix_nonempty p) as Lp.
    apply consumeSuffix_Some in C.
    destruct (IH (slen r) ltac:(lia) r eq_refl) as (w & ts & -> & I).
    exists w, (ts ++ [p])%list. split; [| exact I].
    rewrite render_app. simpl. now rewrite append_nil_r, <- append_assoc.
Qed.

Lemma settings_text_shape_unique (w w' : string) (ts ts' : list Pragma) :
  inert w -> inert w' -> w ++ render ts = w' ++ render ts' ->
  w = w' /\ ts = ts'.
Proof.
  intros I I'. revert ts'.
  induction ts as [|t ts IH] using rev_ind; intros ts' H.
  - destruct ts' as [|t' ts'] using rev_ind.
    + simpl in H. rewrite !append_nil_r in H. now split.
    + exfalso. rewrite render_app in H. simpl in H.
      rewrite !append_nil_r, <- append_assoc in H.
      apply consumeSuffix_Some in H. rewrite I in H. discriminate.
  - destruct ts' as [|t' ts'] using rev_ind.
    + exfalso. rewrite render_app in H. simpl in H.
      rewrite !append_nil_r, <- append_assoc in H. symmetry in H.
      apply consumeSuffix_Some in H. rewrite I' in H. discriminate.
    + clear IHts'. rewrite !render_app in H. simpl in H.
      rewrite !append_nil_r, <- !append_assoc in H.
      destruct (pragma_suffix_shape t) as (n1 & E1 & F1).
      destruct (pragma_suffix_shape t') as (n2 & E2 & F2).
      pose proof H as H'. rewrite E1, E2 in H'.
      destruct (last_space _ _ _ _ F1 F2 H') as [Hx Hn].
      assert (t = t') by (apply pragma_suffix_inj; now rewrite E1, E2, Hn).
      subst t'. destruct (IH _ Hx) as [-> ->]. now split.
Qed.

Lemma render_empty (ts : list Pragma) : render ts = "" -> ts = [].
Proof.
  destruct ts as [|t ts]; [reflexivity |]. intros H.
  pose proof (render_length (t :: ts) ltac:(discriminate)) as L.
  rewrite H in L. simpl in L. lia.
Qed.

End ShapeFacts.

(** ** Facts on the outputs after a token sequence *)

Section SummaryFacts.

Lemma outputs_ext (a b : Outputs) :
  fFlipY (settings a) = fFlipY (settings b) ->
  fForceHighPrecision (settings a) = fForceHighPrecision (settings b) ->
  fInlineThreshold (settings a) = fInlineThreshold (settings b) ->
  fSharpenTextures (settings a) = fSharpenTextures (settings b) ->
  fReplaceSettings (settings a) = fReplaceSettings (settings b) ->
  caps a = caps b ->
  a = b.
Proof.
  destruct a as [[a1 a2 a3 a4 a5] a6], b as [[b1 b2 b3 b4 b5] b6]. simpl.
  now intros -> -> -> -> -> ->.
Qed.

Lemma fold_fFlipY (ts : list Pragma) (o : Outputs) :
  fFlipY (settings (fold_right apply_pragma o ts)) =
  fFlipY (settings o) || existsb is_FlipY ts.
Proof.
  induction ts as [|t ts IH]; simpl; [now rewrite orb_false_r |].
  destruct t; simpl; try exact IH. now rewrite orb_true_r.
Qed.

Lemma fold_fForceHighPrecision (ts : list Pragma) (o : Outputs) :
  fForceHighPrecision (settings (fold_right apply_pragma o ts)) =
  fForceHighPrecision (settings o) || existsb is_ForceHighPrecision ts.
Proof.
  induction ts as [|t ts IH]; simpl; [now rewrite orb_false_r |].
  destruct t; simpl; try exact IH. now rewrite orb_true_r.
Qed.

Lemma fold_fSharpenTextures (ts : list Pragma) (o : Outputs) :
  fSharpenTextures (settings (fold_right apply_pragma o ts)) =
  fSharpenTextures (settings o) || existsb is_Sharpen ts.
Proof.
  induction ts as [|t ts IH]; simpl; [now rewrite orb_false_r |].
  destruct t; simpl; try exact IH. now rewrite orb_true_r.
Qed.

Lemma fold_fInlineThreshold (ts : list Pragma) (o : Outputs) :
  fInlineThreshold (settings (fold_right apply_pragma o ts)) =
  match first_threshold ts with
  | Some v => v
  | None => fInlineThreshold (settings o)
  end.
Proof.
  induction ts as [|t ts IH]; simpl; [reflexivity |].
  destruct t; simpl; try exact IH; reflexivity.
Qed.

Lemma fold_fReplaceSettings (ts : list Pragma) (o : Outputs) :
  fReplaceSettings (settings (fold_right apply_pragma o ts)) =
  fReplaceSettings (settings o).
Proof.
  induction ts as [|t ts IH]; simpl; [reflexivity |].
  destruct t; simpl; exact IH.
Qed.

Lemma existsb_permutation {A : Type} (f : A -> bool) (l l' : list A) :
  Permutation l l' -> existsb f l = existsb f l'.
Proof.
  induction 1 as [| x l l' _ IH | x y l | l l' l'' _ IH1 _ IH2]; simpl.
  - reflexivity.
  - now rewrite IH.
  - now rewrite !orb_assoc, (orb_comm (f y)).
  - now rewrite IH1.
Qed.

(** Applying the tokens of a sequence a second time changes nothing. *)
Lemma fold_apply_twice (ts : list Pragma) (o : Outputs) :
  fold_right apply_pragma (fold_right apply_pragma o ts) ts =
  fold_right apply_pragma o ts.
Proof.
  apply outputs_ext.
  - rewrite !fold_fFlipY. now rewrite <- orb_assoc, orb_diag.
  - rewrite !fold_fForceHighPrecision. now rewrite <- orb_assoc, orb_diag.
  - rewrite !fold_fInlineThreshold. now destruct (first_threshold ts).
  - rewrite !fold_fSharpenTextures. now rewrite <- orb_assoc, orb_diag.
  - now rewrite !fold_fReplaceSettings.
  - rewrite !caps_fold_right. now destruct (first_caps ts).
Qed.

(** What the parser answers for any settings text. *)
Lemma detect_shape (text s : string) (o : Outputs) :
  settings_text text = Some s ->
  exists w ts,
    s = w ++ render ts /\ inert w /\
    detect_shader_settings text o =
    if w =? "" then
      {| ok := true; outputs := fold_right apply_pragma o ts; printed := None |}
    else
      {| ok := false; outputs := fold_right apply_pragma o ts;
         printed := Some ("Unrecognized #pragma settings: " ++ w ++ LF) |}.
Proof.
  intros T. destruct (settings_text_shape s) as (w & ts & E & I).
  exists w, ts. split; [exact E |]. split; [exact I |].
  apply detect_tokens; [now rewrite T, E | exact I].
Qed.

End SummaryFacts.

(** ** Facts on text behind the pragma comment *)

Section TailFacts.

Lemma c_str_nul_free (a : string) : nul_free a = true -> c_str a = a.
Proof.
  induction a as [|c a IH]; simpl; [reflexivity |].
  destruct (Ascii.eqb c NUL); simpl; [discriminate |].
  intros F. now rewrite IH.
Qed.

Lemma c_str_cut (a b : string) : c_str (a ++ String NUL b) = c_str a.
Proof.
  rewrite c_str_append. destruct (nul_free a) eqn:F; [| reflexivity].
  simpl. now rewrite append_nil_r, c_str_nul_free.
Qed.

Lemma substring_0_front (p b : string) (k : nat) :
  k <= slen p -> substring 0 k (p ++ b) = substring 0 k p.
Proof.
  revert k. induction p as [|c p IH]; intros k L; simpl in L.
  - assert (k = 0) by lia. subst k. now destruct b.
  - destruct k as [|k]; [reflexivity |]. simpl. rewrite IH by lia. reflexivity.
Qed.

(** The first occurrence in a text stays the first when the text goes
    on. *)
Lemma strstr_append (h n t b : string) :
  strstr h n = Some t -> strstr (h ++ b) n = Some (t ++ b).
Proof.
  induction h as [|c h IH]; rewrite strstr_eq;
    destruct (starts_with _ n) eqn:Hs; try discriminate.
  - intros [= <-]. rewrite strstr_eq.
    replace (starts_with ("" ++ b) n) with true; [reflexivity |].
    symmetry. apply starts_with_iff. apply starts_with_iff in Hs.
    destruct Hs as [x Hx]. exists (x ++ b). now rewrite <- append_assoc, <- Hx.
  - intros [= <-]. rewrite strstr_eq.
    replace (starts_with (String c h ++ b) n) with true; [reflexivity |].
    symmetry. apply starts_with_iff. apply starts_with_iff in Hs.
    destruct Hs as [x Hx]. exists (x ++ b). now rewrite <- append_assoc, <- Hx.
  - intros H. destruct (strstr_Some _ _ _ H) as (a & x & Ha & Ht).
    rewrite strstr_eq.
    assert (L : slen n <= slen (String c h)).
    { simpl. rewrite Ha, Ht, !slen_append. lia. }
    rewrite (starts_with_front (String c h) b n L), Hs.
    simpl. now apply IH.
Qed.

Lemma text_before_terminator_append (p s b : string) :
  text_before_terminator p = Some s -> text_before_terminator (p ++ b) = Some s.
Proof.
  unfold text_before_terminator.
  destruct (strstr p "*/") as [e|] eqn:F; [| discriminate].
  intros [= <-]. rewrite (strstr_append _ _ _ b F).
  destruct (strstr_Some _ _ _ F) as (a & x & Ha & _).
  assert (Le : slen e <= slen p) by (rewrite Ha, slen_append; lia).
  rewrite !slen_append.
  replace (slen p + slen b - (slen e + slen b)) with (slen p - slen e) by lia.
  rewrite substring_0_front by lia. reflexivity.
Qed.

Lemma settings_of_c_str_append (a s b : string) :
  settings_of_c_str a = Some s -> settings_of_c_str (a ++ b) = Some s.
Proof.
  unfold settings_of_c_str.
  destruct (strstr a kPragmaSettings) as [found|] eqn:F; [| discriminate].
  intros T. rewrite (strstr_append _ _ _ b F).
  destruct (strstr_Some _ _ _ F) as (x & y & _ & ->).
  rewrite append_assoc, advance_marker. rewrite advance_marker in T.
  exact (text_before_terminator_append (String " "%char y) s b T).
Qed.

(** A complete pragma comment decides the settings text, whatever
    follows. *)
Lemma settings_text_append (a s b : string) :
  settings_text a = Some s -> settings_text (a ++ b) = Some s.
Proof.
  unfold settings_text. rewrite c_str_append.
  destruct (nul_free a) eqn:F; [| trivial].
  rewrite (c_str_nul_free a F). apply settings_of_c_str_append.
Qed.

End TailFacts.

(** ** More facts on [base_name] *)

Section BaseNameParts.

(** When both comparisons succeed and the prefix and the suffix fit into
    the file name side by side, the file name is the prefix, the result
    and the suffix in a row. *)
Lemma base_name_middle (fpPath prefix suffix : string) :
  (exists rest, file_name fpPath = prefix ++ rest) ->
  (exists stem, fpPath = stem ++ suffix) ->
  slen prefix + slen suffix <= slen (file_name fpPath) ->
  file_name fpPath = prefix ++ base_name fpPath prefix suffix ++ suffix.
Proof.
  intros [rest Hr] [stem Hs] L.
  destruct (file_name_spec fpPath) as (dir & P & F & D).
  assert (E1 : endsWith fpPath suffix = true) by (apply endsWith_iff; now exists stem).
  assert (E2 : endsWith fpPath rest = true).
  { apply endsWith_iff. exists (dir ++ prefix). now rewrite append_assoc, <- Hr. }
  assert (L' : slen suffix <= slen rest).
  { rewrite Hr, slen_append in L. lia. }
  pose proof (endsWith_both fpPath rest suffix E2 E1 L') as E3.
  apply endsWith_iff in E3. destruct E3 as [m ->].
  rewrite Hr in P, F.
  rewrite (f_equal (fun p => base_name p prefix suffix) P).
  rewrite (base_name_of_parts dir prefix m suffix F D). exact Hr.
Qed.

End BaseNameParts.

(** ** More facts on the batch *)

Section BatchParts.

Variables W P : Type.
Variable E : Env W P.
Variable argv0 : string.

Lemma code_max_code (a b : ResultCode) :
  code (max_code a b) = Z.max (code a) (code b).
Proof. destruct a, b; reflexivity. Qed.

Lemma code_fold_max (l : list ResultCode) (k : ResultCode) :
  code (fold_left max_code l k) = Z.max (code k) (code (worst l)).
Proof.
  unfold worst. revert k. induction l as [|x l IH]; intros k; simpl.
  - destruct k; reflexivity.
  - rewrite (IH (max_code k x)), (IH (max_code kSuccess x)), !code_max_code.
    change (code kSuccess) with 0%Z.
    assert (0 <= code x)%Z by (destruct x; cbv; discriminate). lia.
Qed.

Lemma code_worst_app (l1 l2 : list ResultCode) :
  code (worst (l1 ++ l2)%list) = Z.max (code (worst l1)) (code (worst l2)).
Proof.
  unfold worst at 1. rewrite fold_left_app.
  now rewrite code_fold_max.
Qed.

Lemma code_worst_range (l : list ResultCode) : (0 <= code (worst l) <= 3)%Z.
Proof. destruct (worst l); cbv; split; discriminate. Qed.

Lemma worst_success (l : list ResultCode) :
  code (worst l) = 0%Z <-> forall r, In r l -> r = kSuccess.
Proof.
  induction l as [|x l IH].
  - split; [intros _ r [] | reflexivity].
  - change (x :: l) with ([x] ++ l)%list. rewrite code_worst_app.
    pose proof (code_worst_range l) as R.
    assert (X : (0 <= code (worst [x]) <= 3)%Z) by apply code_worst_range.
    split.
    + intros H r [Hx | Hr].
      * subst r. assert (C : code (worst [x]) = 0%Z) by lia.
        destruct x; try reflexivity; discriminate C.
      * apply IH; [lia | exact Hr].
    + intros H. assert (x = kSuccess) by (apply H; now left). subst x.
      assert (code (worst l) = 0%Z) by (apply IH; intros r Hr; apply H; now right).
      change (code (worst [kSuccess])) with 0%Z. lia.
Qed.

Lemma run_jobs_app (j1 j2 : list (list string)) (w : W) :
  run_jobs E (j1 ++ j2)%list w =
  let (o1, w1) := run_jobs E j1 w in
  let (o2, w2) := run_jobs E j2 w1 in
  ((o1 ++ o2)%list, w2).
Proof.
  revert w. induction j1 as [|j j1 IH]; intros w; simpl.
  - unfold ret. now destruct (run_jobs E j2 w).
  - unfold bind, ret. destruct (processCommand E j w) as [o w1].
    rewrite IH. destruct (run_jobs E j1 w1) as [o1 w2].
    now destruct (run_jobs E j2 w2).
Qed.

Lemma main_jobs (argv : list string) (w : W) :
  main E argv0 argv w =
  (outcomes <- run_jobs E (split_jobs argv0 [] argv) ;;
   ret (code (worst outcomes))) w.
Proof. exact (main_loop_jobs W P E argv0 argv [] kSuccess w). Qed.

(** What [split_jobs] hands out: each job is [argv[0]] followed by at least
    one argument, none of them the delimiter, and the jobs' arguments in a
    row are the arguments without the delimiters. *)
Lemma split_jobs_spec (argv cur : list string) :
  ~ In "--" cur ->
  (forall job, In job (split_jobs argv0 cur argv) ->
     exists seg, job = argv0 :: seg /\ seg <> [] /\ ~ In "--" seg) /\
  concat (map (@tl string) (split_jobs argv0 cur argv)) =
    (rev cur ++ filter (fun arg => negb (arg =? "--")) argv)%list.
Proof.
  revert cur. induction argv as [|arg rest IH]; intros cur N.
  - destruct cur as [|c cur]; simpl.
    + split; [intros job [] | reflexivity].
    + split.
      * intros job [<- | []]. exists (rev cur ++ [c])%list.
        split; [reflexivity |]. split; [now destruct (rev cur) |].
        intros H. apply N. apply in_rev. exact H.
      * now rewrite !app_nil_r.
  - simpl. destruct (arg =? "--") eqn:D; simpl.
    + destruct (IH [] ltac:(intros [])) as [J C].
      destruct cur as [|c cur].
      * split; [exact J | exact C].
      * split.
        -- intros job [<- | H]; [| now apply J].
           exists (rev (c :: cur)). split; [reflexivity |].
           split; [simpl; now destruct (rev cur) |].
           intros H. apply N. apply in_rev. exact H.
        -- simpl. rewrite C. reflexivity.
    + assert (N' : ~ In "--" (arg :: cur)).
      { intros [H | H]; [| now apply N]. subst arg. discriminate D. }
      destruct (IH (arg :: cur) N') as [J C]. split; [exact J |].
      rewrite C. simpl. now rewrite <- app_assoc.
Qed.

End BatchParts.

(** ** Facts on jobs in the logging world *)

Section LogFacts.

Variable a : Answers.

Lemma detect_cases (text : string) (o : Outputs) :
  (ok (detect_shader_settings text o) = true /\
   printed (detect_shader_settings text o) = None) \/
  (ok (detect_shader_settings text o) = false /\
   exists line, printed (detect_shader_settings text o) = Some line).
Proof.
  destruct (settings_text text) as [s|] eqn:T.
  - destruct (detect_shape text s o T) as (w & ts & _ & _ & D). rewrite D.
    destruct (w =? ""); [left | right]; split; try reflexivity. now eexists.
  - unfold detect_shader_settings. rewrite T. now left.
Qed.

Lemma write_bytes_log (prefixAtOffset : nat -> string) (i : nat) (data : string)
    (w : list Event) :
  write_bytes (logging_env a) prefixAtOffset i data w =
  (tt, (w ++ map WriteOutput (byte_entries prefixAtOffset i data))%list).
Proof.
  revert i w. induction data as [|c data IH]; intros i w; simpl.
  - unfold ret. now rewrite app_nil_r.
  - unfold bind, log. rewrite IH. now rewrite <- app_assoc.
Qed.

Lemma no_call_in_writes (ws : list string) (c : ShaderCaps) (f : bool) (k : Kind)
    (s : Settings) :
  ~ In (ConvertProgram c f k s) (map WriteOutput ws).
Proof. intros H. apply in_map_iff in H. destruct H as (x & H & _). discriminate. Qed.

Lemma compile_to_run (inputPath outputPath : string) (o : Outputs) (flag : bool)
    (kind : Kind) (text g : string) :
  exists r l,
    JobRun a inputPath outputPath r (ReadInput inputPath :: l) /\
    (forall w, compile_to (logging_env a) outputPath o flag kind text
                 (fun _ => log (Emit g) (emit_ok a)) w = (r, (w ++ l)%list)) /\
    (forall c f k s, In (ConvertProgram c f k s) l ->
       ConvertProgram c f k s = ConvertProgram (caps o) flag kind (settings o)).
Proof.
  destruct (output_valid a outputPath) eqn:V.
  - destruct (program_ok a) eqn:Pr.
    + destruct (emit_ok a) eqn:Em.
      * destruct (close_ok a) eqn:Cl.
        -- exists kSuccess,
             [OpenOutput outputPath; NewCompiler (caps o) flag;
              ConvertProgram (caps o) flag kind (settings o); Emit g; CloseOutput].
           split; [now apply run_compiled |]. split.
           ++ intros w. unfold compile_to, bind, ret, logging_env, log. cbn.
              rewrite ?V; cbn; rewrite ?Pr; cbn; rewrite ?Em; cbn; rewrite ?Cl; cbn.
              now rewrite <- !app_assoc.
           ++ intros c f k s H. cbn [In] in H.
              repeat (destruct H as [H | H]; try discriminate H);
                [now symmetry | contradiction].
        -- exists kOutputError,
             [OpenOutput outputPath; NewCompiler (caps o) flag;
              ConvertProgram (caps o) flag kind (settings o); Emit g; CloseOutput;
              Stdout ("error writing '" ++ outputPath ++ "'" ++ LF)].
           split; [now apply run_compiled_unclosed |]. split.
           ++ intros w. unfold compile_to, bind, ret, logging_env, log. cbn.
              rewrite ?V; cbn; rewrite ?Pr; cbn; rewrite ?Em; cbn; rewrite ?Cl; cbn.
              now rewrite <- !app_assoc.
           ++ intros c f k s H. cbn [In] in H.
              repeat (destruct H as [H | H]; try discriminate H);
                [now symmetry | contradiction].
      * exists kCompileError,
          ([OpenOutput outputPath; NewCompiler (caps o) flag;
            ConvertProgram (caps o) flag kind (settings o); Emit g; ErrorText]
           ++ rewrite_events a outputPath)%list.
        split; [exact (run_no_code a inputPath outputPath _ _ _ _ g V) |]. split.
        -- intros w. unfold compile_to, emitCompileError, bind, ret, logging_env, log.
           cbn.
           rewrite ?V; cbn; rewrite ?Pr; cbn; rewrite ?Em; cbn; rewrite ?Cl; cbn.
           now rewrite <- !app_assoc.
        -- intros c f k s H. unfold rewrite_events in H. cbn [In app] in H.
           repeat (destruct H as [H | H]; try discriminate H);
             [now symmetry | contradiction].
    + exists kCompileError,
        ([OpenOutput outputPath; NewCompiler (caps o) flag;
          ConvertProgram (caps o) flag kind (settings o); ErrorText]
         ++ rewrite_events a outputPath)%list.
      split; [exact (run_no_program a inputPath outputPath _ _ _ _ V) |]. split.
      * intros w. unfold compile_to, emitCompileError, bind, ret, logging_env, log.
        cbn.
        rewrite ?V; cbn; rewrite ?Pr; cbn; rewrite ?Em; cbn; rewrite ?Cl; cbn.
        now rewrite <- !app_assoc.
      * intros c f k s H. unfold rewrite_events in H. cbn [In app] in H.
        repeat (destruct H as [H | H]; try discriminate H);
          [now symmetry | contradiction].
  - exists kOutputError,
      [OpenOutput outputPath; NewCompiler (caps o) flag;
       Stdout ("error writing '" ++ outputPath ++ "'" ++ LF)].
    split; [now apply run_unopened |]. split.
    + intros w. unfold compile_to, bind, ret, logging_env, log. cbn.
      rewrite ?V; cbn. now rewrite <- !app_assoc.
    + intros c f k s H. cbn [In] in H.
      repeat (destruct H as [H | H]; try discriminate H). contradiction.
Qed.

Lemma dehydrate_to_run (inputPath outputPath : string) (o : Outputs) (kind : Kind) :
  exists r l,
    JobRun a inputPath outputPath r (ReadInput inputPath :: l) /\
    (forall w, dehydrate_to (logging_env a) inputPath outputPath o kind w =
               (r, (w ++ l)%list)) /\
    (forall c f k s, ~ In (ConvertProgram c f k s) l).
Proof.
  pose (head := "static uint8_t SKSL_INCLUDE_" ++ base_name inputPath "" ".sksl"
               ++ "[] = {").
  pose (tail := [ "};" ++ LF;
                  "static constexpr size_t SKSL_INCLUDE_" ++
                  base_name inputPath "" ".sksl" ++
                  "_LENGTH = sizeof(SKSL_INCLUDE_" ++
                  base_name inputPath "" ".sksl" ++ ");" ++ LF ]).
  pose (ws := (head :: byte_entries (fun _ => "") 0 (module_bytes a) ++ tail)%list).
  assert (Wm : forall w,
             write_module (logging_env a) inputPath o kind w =
             (tt, (w ++ Dehydrate inputPath :: map WriteOutput ws)%list)).
  { intros w. unfold write_module, bind, ws, head, tail.
    cbn [dehydrate logging_env out_write].
    unfold log at 1 2. cbn [fst snd]. rewrite write_bytes_log.
    unfold log. cbn [map]. rewrite map_app. cbn [map].
    rewrite <- !app_assoc. reflexivity. }
  destruct (output_valid a outputPath) eqn:V.
  - destruct (close_ok a) eqn:Cl.
    + exists kSuccess,
        (OpenOutput outputPath :: NewCompiler (caps o) false ::
         Dehydrate inputPath ::
         map WriteOutput ws ++ [CloseOutput])%list.
      split; [now apply run_dehydrated |]. split.
      * intros w. unfold dehydrate_to. unfold bind at 1.
        cbn [out_open logging_env]. unfold log at 1. rewrite V.
        unfold bind at 1. cbn [newCompiler logging_env]. unfold log at 1.
        cbn [negb].
        unfold bind at 1. rewrite Wm. unfold bind at 1.
        cbn [out_close logging_env]. unfold log at 1. rewrite Cl. cbn [negb].
        unfold ret. rewrite <- !app_assoc. reflexivity.
      * intros c f k s [H | [H | [H | H]]]; try discriminate H.
        apply in_app_or in H. destruct H as [H | H].
        -- exact (no_call_in_writes _ _ _ _ _ H).
        -- cbn [In] in H. destruct H as [H | H]; [discriminate H | exact H].
    + exists kOutputError,
        (OpenOutput outputPath :: NewCompiler (caps o) false ::
         Dehydrate inputPath ::
         map WriteOutput ws ++
         [CloseOutput; Stdout ("error writing '" ++ outputPath ++ "'" ++ LF)])%list.
      split; [now apply run_dehydrated_unclosed |]. split.
      * intros w. unfold dehydrate_to. unfold bind at 1.
        cbn [out_open logging_env]. unfold log at 1. rewrite V.
        unfold bind at 1. cbn [newCompiler logging_env]. unfold log at 1.
        cbn [negb].
        unfold bind at 1. rewrite Wm. unfold bind at 1.
        cbn [out_close logging_env]. unfold log at 1. rewrite Cl. cbn [negb].
        unfold bind, ret. cbn [sk_print logging_env]. unfold log.
        rewrite <- !app_assoc. reflexivity.
      * intros c f k s [H | [H | [H | H]]]; try discriminate H.
        apply in_app_or in H. destruct H as [H | H].
        -- exact (no_call_in_writes _ _ _ _ _ H).
        -- cbn [In] in H.
           repeat (destruct H as [H | H]; try discriminate H). exact H.
  - exists kOutputError,
      [OpenOutput outputPath; NewCompiler (caps o) false;
       Stdout ("error writing '" ++ outputPath ++ "'" ++ LF)].
    split; [now apply run_unopened |]. split.
    + intros w. unfold dehydrate_to. unfold bind at 1.
      cbn [out_open logging_env]. unfold log at 1. rewrite V.
        unfold bind at 1. cbn [newCompiler logging_env]. unfold log at 1.
        cbn [negb].
      unfold bind, ret. cbn [sk_print logging_env]. unfold log.
      rewrite <- !app_assoc. reflexivity.
    + intros c f k s H. cbn [In] in H.
      repeat (destruct H as [H | H]; try discriminate H). exact H.
Qed.

Lemma run_backend_run (inputPath outputPath : string) (o : Outputs) (kind : Kind)
    (text : string) :
  exists r l,
    JobRun a inputPath outputPath r (ReadInput inputPath :: l) /\
    (forall w, run_backend (logging_env a) inputPath outputPath o kind text w =
               (r, (w ++ l)%list)) /\
    (forall c f k s, In (ConvertProgram c f k s) l ->
       ConvertProgram c f k s = call_of o kind outputPath).
Proof.
  unfold run_backend, call_of, header_output.
  destruct (endsWith outputPath ".spirv") eqn:E1.
  { rewrite (endsWith_exclusive outputPath ".spirv" ".h" eq_refl eq_refl E1).
    rewrite (endsWith_exclusive outputPath ".spirv" ".cpp" eq_refl eq_refl E1).
    exact (compile_to_run inputPath outputPath o false kind text "toSPIRV"). }
  destruct (endsWith outputPath ".glsl") eqn:E2.
  { rewrite (endsWith_exclusive outputPath ".glsl" ".h" eq_refl eq_refl E2).
    rewrite (endsWith_exclusive outputPath ".glsl" ".cpp" eq_refl eq_refl E2).
    exact (compile_to_run inputPath outputPath o false kind text "toGLSL"). }
  destruct (endsWith outputPath ".metal") eqn:E3.
  { rewrite (endsWith_exclusive outputPath ".metal" ".h" eq_refl eq_refl E3).
    rewrite (endsWith_exclusive outputPath ".metal" ".cpp" eq_refl eq_refl E3).
    exact (compile_to_run inputPath outputPath o false kind text "toMetal"). }
  destruct (endsWith outputPath ".h") eqn:E4.
  { exact (compile_to_run inputPath outputPath
             {| settings := set_fReplaceSettings false (settings o); caps := caps o |}
             true kind text ("toH " ++ base_name (c_str inputPath) "Gr" ".fp")). }
  destruct (endsWith outputPath ".cpp") eqn:E5.
  { exact (compile_to_run inputPath outputPath
             {| settings := set_fReplaceSettings false (settings o); caps := caps o |}
             true kind text ("toCPP " ++ base_name (c_str inputPath) "Gr" ".fp")). }
  destruct (endsWith outputPath ".dehydrated.sksl").
  { destruct (dehydrate_to_run inputPath outputPath o kind) as (r & l & J & R & C).
    exists r, l. split; [exact J |]. split; [exact R |].
    intros c f k s H. destruct (C c f k s H). }
  exists kInputError, [Stdout backend_text].
  split; [apply run_refused |]. split; [reflexivity |].
  intros c f k s [H | []]. discriminate H.
Qed.

Lemma run_job_run (args : list string) (honor : bool) :
  exists r l,
    JobRun a (nth 1 args "") (nth 2 args "") r l /\
    (forall w, run_job (logging_env a) args honor w = (r, (w ++ l)%list)) /\
    (forall c f k s, In (ConvertProgram c f k s) l ->
       exists kind text,
         input_kind (nth 1 args "") = Some kind /\
         input_of a (nth 1 args "") = Some text /\
         ConvertProgram c f k s =
         call_of (if honor
                  then outputs (detect_shader_settings text (default_outputs a))
                  else default_outputs a) kind (nth 2 args "")).
Proof.
  unfold run_job.
  destruct (input_kind (nth 1 args "")) as [kind|].
  - destruct (input_of a (nth 1 args "")) as [text|] eqn:In.
    + assert (B : forall o,
                exists r l,
                  JobRun a (nth 1 args "") (nth 2 args "") r l /\
                  (forall w, run_backend (logging_env a) (nth 1 args "")
                               (nth 2 args "") o kind text
                               (w ++ [ReadInput (nth 1 args "")])%list =
                             (r, (w ++ l)%list)) /\
                  (forall c f k s, List.In (ConvertProgram c f k s) l ->
                     ConvertProgram c f k s = call_of o kind (nth 2 args ""))).
      { intros o.
        destruct (run_backend_run (nth 1 args "") (nth 2 args "") o kind text)
          as (r & l & J & R & C).
        exists r, (ReadInput (nth 1 args "") :: l). split; [exact J |]. split.
        - intros w. rewrite R. now rewrite <- app_assoc.
        - intros c f k s [H | H]; [discriminate H | exact (C c f k s H)]. }
      destruct honor.
      * destruct (detect_cases text (default_outputs a))
          as [[K Pn] | [K [line Pn]]];
          [destruct (B (outputs (detect_shader_settings text (default_outputs a))))
             as (r & l & J & R & C) |].
        -- exists r, l. split; [exact J |]. split.
           ++ intros w.
              unfold bind at 1. cbn [read_input logging_env]. unfold log at 1.
              rewrite In. fold (default_outputs a). rewrite Pn, K. cbn [negb].
              unfold bind, ret. apply R.
           ++ intros c f k s H. exists kind, text.
              split; [reflexivity |]. split; [reflexivity |]. exact (C c f k s H).
        -- exists kInputError, [ReadInput (nth 1 args ""); Stdout line].
           split; [apply run_refused |]. split.
           ++ intros w.
              unfold bind at 1. cbn [read_input logging_env]. unfold log at 1.
              rewrite In. fold (default_outputs a). rewrite Pn, K. cbn [negb].
              unfold bind, ret.
              cbn [sk_print logging_env]. unfold log. now rewrite <- app_assoc.
           ++ intros c f k s H. cbn [List.In] in H.
              repeat (destruct H as [H | H]; try discriminate H). contradiction.
      * destruct (B (default_outputs a)) as (r & l & J & R & C).
        exists r, l. split; [exact J |]. split.
        -- intros w.
           unfold bind at 1. cbn [read_input logging_env]. unfold log at 1.
           rewrite In. apply R.
        -- intros c f k s H. exists kind, text.
           split; [reflexivity |]. split; [reflexivity |]. exact (C c f k s H).
    + exists kInputError,
        [ReadInput (nth 1 args "");
         Stdout ("error reading '" ++ nth 1 args "" ++ "'" ++ LF)].
      split; [apply run_refused |]. split.
      * intros w.
        unfold bind at 1. cbn [read_input logging_env]. unfold log at 1.
        rewrite In. unfold bind, ret. cbn [sk_print logging_env]. unfold log.
        now rewrite <- app_assoc.
      * intros c f k s H. cbn [List.In] in H.
        repeat (destruct H as [H | H]; try discriminate H). contradiction.
  - exists kInputError, (map Stdout [kind_text]).
    split; [apply run_rejected; discriminate |]. split; [reflexivity |].
    intros c f k s [H | []]. discriminate H.
Qed.

(** Every job in the logging world is one of the runs of [JobRun], what it
    adds to the log does not depend on the log it finds, and a call of
    [convertProgram] in it is the call of [call_of]. *)
Lemma job_run (args : list string) :
  exists r l,
    JobRun a (nth 1 args "") (nth 2 args "") r l /\
    (forall w, processCommand (logging_env a) args w = (r, (w ++ l)%list)) /\
    (forall c f k s, In (ConvertProgram c f k s) l ->
       exists kind text,
         input_kind (nth 1 args "") = Some kind /\
         input_of a (nth 1 args "") = Some text /\
         ConvertProgram c f k s =
         call_of (job_outputs a args text) kind (nth 2 args "")).
Proof.
  unfold processCommand, job_outputs, honored.
  destruct (List.length args =? 4)%nat eqn:L4.
  - destruct (nth 3 args "" =? "--settings") eqn:F1.
    { apply String.eqb_eq in F1. rewrite F1. apply run_job_run. }
    destruct (nth 3 args "" =? "--nosettings") eqn:F2; [apply run_job_run |].
    exists kInputError,
      (map Stdout ["unrecognized flag: " ++ nth 3 args "" ++ LF ++ LF; usage_text]).
    split; [apply run_rejected; discriminate |]. split.
    + intros w. unfold bind, ret, show_usage. cbn [sk_print logging_env].
      unfold log. cbn [map]. now rewrite <- app_assoc.
    + intros c f k s H. cbn [In map] in H.
      repeat (destruct H as [H | H]; try discriminate H). contradiction.
  - destruct (List.length args =? 3)%nat eqn:L3; cbn [negb].
    + apply Nat.eqb_eq in L3. assert (N3 : nth 3 args "" = "") by (apply nth_overflow; lia).
      rewrite N3.
      apply run_job_run.
    + exists kInputError, (map Stdout [usage_text]).
      split; [apply run_rejected; discriminate |]. split; [reflexivity |].
      intros c f k s [H | []]. discriminate H.
Qed.

(** The two halves of [job_run] that most facts need. *)
Lemma job_log (args : list string) :
  JobRun a (nth 1 args "") (nth 2 args "")
    (fst (processCommand (logging_env a) args []))
    (snd (processCommand (logging_env a) args [])).
Proof.
  destruct (job_run args) as (r & l & J & R & _). rewrite (R []). exact J.
Qed.

Lemma job_appends (args : list string) (w : list Event) :
  processCommand (logging_env a) args w =
  (fst (processCommand (logging_env a) args []),
   (w ++ snd (processCommand (logging_env a) args []))%list).
Proof.
  destruct (job_run args) as (r & l & _ & R & _). rewrite (R []), (R w).
  reflexivity.
Qed.

End LogFacts.

(** ** Facts on the runs of [JobRun] *)

Section RunFacts.

Variable a : Answers.
Variables inputPath outputPath : string.

Lemma existsb_writes (p : Event -> bool) (ws : list string) :
  (forall d, p (WriteOutput d) = false) -> existsb p (map WriteOutput ws) = false.
Proof. intros H. induction ws as [|d ws IH]; [reflexivity |]. cbn. now rewrite H. Qed.

Lemma filter_writes (p : Event -> bool) (ws : list string) :
  (forall d, p (WriteOutput d) = false) -> filter p (map WriteOutput ws) = [].
Proof. intros H. induction ws as [|d ws IH]; [reflexivity |]. cbn. now rewrite H. Qed.

Lemma existsb_lines (p : Event -> bool) (lines : list string) :
  (forall d, p (Stdout d) = false) -> existsb p (map Stdout lines) = false.
Proof. intros H. induction lines as [|d ws IH]; [reflexivity |]. cbn. now rewrite H. Qed.

Lemma filter_lines (p : Event -> bool) (lines : list string) :
  (forall d, p (Stdout d) = false) -> filter p (map Stdout lines) = [].
Proof. intros H. induction lines as [|d ws IH]; [reflexivity |]. cbn. now rewrite H. Qed.

Lemma existsb_some_line (lines : list string) :
  lines <> [] -> existsb is_stdout (map Stdout lines) = true.
Proof. destruct lines; [contradiction | reflexivity]. Qed.

Ltac scan :=
  unfold rewrite_events;
  cbn [existsb filter app orb negb List.length
       is_stdout is_read is_open is_close is_error_text is_compile];
  rewrite ?existsb_app, ?filter_app, ?length_app;
  rewrite ?existsb_writes, ?existsb_lines, ?filter_writes, ?filter_lines
    by reflexivity;
  cbn [existsb filter app orb negb List.length
       is_stdout is_read is_open is_close is_error_text is_compile].

Lemma run_silent (r : ResultCode) (l : list Event) :
  JobRun a inputPath outputPath r l ->
  (r = kSuccess <-> existsb is_stdout l = false).
Proof.
  intros J. destruct J; scan; try (split; [discriminate | discriminate]);
    try (split; reflexivity).
  rewrite existsb_some_line by assumption. split; discriminate.
Qed.

Lemma run_opens (r : ResultCode) (l : list Event) :
  JobRun a inputPath outputPath r l ->
  (r = kInputError <-> existsb is_open l = false).
Proof.
  intros J. destruct J; scan; try (split; [discriminate | discriminate]);
    split; reflexivity.
Qed.

Lemma run_error_text (r : ResultCode) (l : list Event) :
  JobRun a inputPath outputPath r l ->
  (r = kCompileError <-> existsb is_error_text l = true) /\
  (r = kCompileError -> exists pre, l = (pre ++ rewrite_events a outputPath)%list).
Proof.
  intros J. destruct J.
  1-3, 6-9: split; [scan; split; discriminate | discriminate].
  - split; [scan; split; reflexivity |]. intros _.
    now exists [ReadInput inputPath; OpenOutput outputPath; NewCompiler c f;
                ConvertProgram c f k s; ErrorText].
  - split; [scan; split; reflexivity |]. intros _.
    now exists [ReadInput inputPath; OpenOutput outputPath; NewCompiler c f;
                ConvertProgram c f k s; Emit g; ErrorText].
Qed.

Lemma run_reads_first (r : ResultCode) (l : list Event) :
  JobRun a inputPath outputPath r l ->
  existsb (fun e => negb (is_stdout e)) l = true ->
  exists rest, l = ReadInput inputPath :: rest /\ existsb is_read rest = false.
Proof.
  intros J. destruct J; intros Hx.
  1: { rewrite existsb_lines in Hx by reflexivity. discriminate. }
  all: eexists; split; [reflexivity | scan; reflexivity].
Qed.

Lemma run_compiles_once (r : ResultCode) (l : list Event) :
  JobRun a inputPath outputPath r l ->
  existsb is_compile l = true ->
  output_valid a outputPath = true /\
  exists c f e rest,
    l = ReadInput inputPath :: OpenOutput outputPath :: NewCompiler c f :: e :: rest /\
    is_compile e = true /\ existsb is_compile rest = false.
Proof.
  intros J. destruct J; scan; intros Hx; try discriminate Hx.
  all: split; [assumption |].
  all: do 4 eexists; split; [reflexivity | split; [reflexivity | scan; reflexivity]].
Qed.

Lemma run_closes (r : ResultCode) (l : list Event) :
  JobRun a inputPath outputPath r l ->
  (forall p, In (OpenOutput p) l -> p = outputPath) /\
  (existsb is_open l = true ->
   if output_valid a outputPath
   then exists pre lines, l = (pre ++ CloseOutput :: map Stdout lines)%list
   else existsb is_close l = false).
Proof.
  intros J. split.
  - intros p H. destruct J; unfold rewrite_events in H; cbn [In app] in H.
    1: { apply in_map_iff in H. destruct H as (x & H & _). discriminate. }
    1-6: repeat (destruct H as [H | H]; try discriminate H);
         try contradiction; now injection H.
    all: repeat (destruct H as [H | H]; try discriminate H);
         try (now injection H);
         apply in_app_or in H; destruct H as [H | H];
         [ apply in_map_iff in H; destruct H as (x & H & _); discriminate
         | cbn [In] in H;
           repeat (destruct H as [H | H]; try discriminate H); contradiction ].
  - destruct J; scan; intros Hx; try discriminate Hx;
      match goal with V : output_valid _ _ = _ |- _ => rewrite V end.
    + reflexivity.
    + exists [ReadInput inputPath; OpenOutput outputPath; NewCompiler c f;
              ConvertProgram c f k s;
              ErrorText; CloseOutput; OpenOutput outputPath;
              WriteOutput ("### Compilation failed:" ++ LF ++ LF);
              WriteOutput (error_text a)], [error_text a ++ LF].
      reflexivity.
    + exists [ReadInput inputPath; OpenOutput outputPath; NewCompiler c f;
              ConvertProgram c f k s;
              Emit g; ErrorText; CloseOutput; OpenOutput outputPath;
              WriteOutput ("### Compilation failed:" ++ LF ++ LF);
              WriteOutput (error_text a)], [error_text a ++ LF].
      reflexivity.
    + exists [ReadInput inputPath; OpenOutput outputPath; NewCompiler c f;
              ConvertProgram c f k s;
              Emit g], [].
      reflexivity.
    + exists [ReadInput inputPath; OpenOutput outputPath; NewCompiler c f;
              ConvertProgram c f k s;
              Emit g], [line].
      reflexivity.
    + exists (ReadInput inputPath :: OpenOutput outputPath :: NewCompiler c false
              :: Dehydrate inputPath :: map WriteOutput ws), [].
      reflexivity.
    + exists (ReadInput inputPath :: OpenOutput outputPath :: NewCompiler c false
              :: Dehydrate inputPath :: map WriteOutput ws), [line].
      reflexivity.
Qed.

End RunFacts.

(** ** Facts on batches in the logging world *)

Section BatchLogFacts.

Variable a : Answers.

Lemma run_jobs_log (jobs : list (list string)) (w : list Event) :
  run_jobs (logging_env a) jobs w =
  (map (fun job => fst (processCommand (logging_env a) job [])) jobs,
   (w ++ concat (map (fun job => snd (processCommand (logging_env a) job [])) jobs))%list).
Proof.
  revert w. induction jobs as [|job jobs IH]; intros w; cbn [run_jobs map concat].
  - unfold ret. now rewrite app_nil_r.
  - unfold bind at 1. rewrite (job_appends a job w).
    unfold bind at 1. rewrite IH. unfold ret. now rewrite <- app_assoc.
Qed.

End BatchLogFacts.


(** ** Facts on the pipelines *)

Section PipelineFacts.

Variables W P : Type.
Variable E : Env W P.

(** A compiling pipeline whose output opens and whose steps succeed ends
    with the final [close], which alone decides between [kSuccess] and
    [kOutputError]. *)
Lemma compile_to_closes (outputPath : string) (o : Outputs) (flag : bool)
    (kind : Kind) (text : string) (emit : P -> M W bool) (closed : bool)
    (w1 w2 w3 w4 w5 : W) :
  out_open E outputPath w1 = (true, w2) ->
  newCompiler E (caps o) flag w2 = (tt, w3) ->
  convert_and_emit E o flag kind text emit w3 = (true, w4) ->
  out_close E w4 = (closed, w5) ->
  compile_to E outputPath o flag kind text emit w1 =
    (if closed then (kSuccess, w5)
     else (sk_print E ("error writing '" ++ outputPath ++ "'" ++ LF) ;;
           ret kOutputError) w5).
Proof.
  intros Ho Hn Hs Hc. unfold compile_to. unfold bind at 1. rewrite Ho.
  unfold bind at 1. rewrite Hn. cbn [negb].
  unfold convert_and_emit in Hs. unfold bind at 1 in Hs. unfold bind at 1.
  destruct (convertProgram E (caps o) flag kind text (settings o) w3)
    as [[p |] w'].
  - unfold bind at 1. rewrite Hs. cbn [negb]. unfold bind at 1. rewrite Hc.
    destruct closed; reflexivity.
  - unfold ret in Hs. discriminate Hs.
Qed.

Lemma dehydrate_to_closes (inputPath outputPath : string) (o : Outputs)
    (kind : Kind) (closed : bool) (w1 w2 w3 w4 w5 : W) :
  out_open E outputPath w1 = (true, w2) ->
  newCompiler E (caps o) false w2 = (tt, w3) ->
  (write_module E inputPath o kind ;; ret true) w3 = (true, w4) ->
  out_close E w4 = (closed, w5) ->
  dehydrate_to E inputPath outputPath o kind w1 =
    (if closed then (kSuccess, w5)
     else (sk_print E ("error writing '" ++ outputPath ++ "'" ++ LF) ;;
           ret kOutputError) w5).
Proof.
  intros Ho Hn Hs Hc. unfold dehydrate_to. unfold bind at 1. rewrite Ho.
  unfold bind at 1. rewrite Hn. cbn [negb].
  unfold bind at 1 in Hs. unfold bind at 1.
  destruct (write_module E inputPath o kind w3) as [u w']. unfold ret in Hs.
  injection Hs as ->. unfold bind at 1. rewrite Hc.
  destruct closed; reflexivity.
Qed.

(** What [run_backend] does for the output suffix of a row of the table:
    it opens the output, constructs the compiler with the row's flag and
    goes on according to the validity; [body] is the rest. *)
Lemma run_backend_row (inputPath stem suffix : string) (o : Outputs) (kind : Kind)
    (text : string) (flag : bool) (steps : M W bool) :
  In (suffix, flag, steps) (pipelines E inputPath o kind text) ->
  (exists emit o',
     caps o' = caps o /\
     steps = convert_and_emit E o' flag kind text emit /\
     run_backend E inputPath (stem ++ suffix) o kind text =
       compile_to E (stem ++ suffix) o' flag kind text emit) \/
  (flag = false /\
   steps = (write_module E inputPath o kind ;; ret true) /\
   run_backend E inputPath (stem ++ suffix) o kind text =
     dehydrate_to E inputPath (stem ++ suffix) o kind).
Proof.
  unfold pipelines. cbn [In]. unfold run_backend.
  intros [H | [H | [H | [H | [H | [H | []]]]]]]; injection H as <- <- <-.
  - left. eexists; eexists. split; [| split]; [| reflexivity |].
    + reflexivity.
    + now rewrite endsWith_append.
  - left. eexists; eexists. split; [| split]; [| reflexivity |].
    + reflexivity.
    + other_suffix. now rewrite endsWith_append.
  - left. eexists; eexists. split; [| split]; [| reflexivity |].
    + reflexivity.
    + do 2 other_suffix. now rewrite endsWith_append.
  - left. eexists; eexists. split; [| split]; [| reflexivity |].
    + reflexivity.
    + do 3 other_suffix. now rewrite endsWith_append.
  - left. eexists; eexists. split; [| split]; [| reflexivity |].
    + reflexivity.
    + do 4 other_suffix. now rewrite endsWith_append.
  - right. split; [reflexivity |]. split; [reflexivity |].
    do 5 other_suffix. now rewrite endsWith_append.
Qed.

(** A job that passes the argument tests, reads its input and, where the
    parser runs, has its pragma accepted, is its backend on the outputs the
    parser left. *)
Lemma job_reaches_backend (args : list string) (kind : Kind) (text : string)
    (o : Outputs) (w w1 : W) :
  accepted args ->
  input_kind (nth 1 args "") = Some kind ->
  read_input E (nth 1 args "") w = (Some text, w1) ->
  ((honors args /\
    ok (detect_shader_settings text (fresh_outputs E)) = true /\
    o = outputs (detect_shader_settings text (fresh_outputs E))) \/
   (~ honors args /\ o = fresh_outputs E)) ->
  processCommand E args w =
    run_backend E (nth 1 args "") (nth 2 args "") o kind text w1.
Proof.
  intros A K R [(Hh & Hk & ->) | (Hn & ->)].
  - rewrite (processCommand_honors W P E args Hh).
    unfold run_job. rewrite K. unfold bind at 1. rewrite R.
    fold (fresh_outputs E).
    destruct (detect_cases text (fresh_outputs E)) as [[_ Pn] | [Kf _]].
    + rewrite Pn, Hk. reflexivity.
    + rewrite Kf in Hk. discriminate Hk.
  - destruct A as [L | [L [F | F]]].
    + destruct Hn. now left.
    + destruct Hn. right. now split.
    + exact (nosettings_skips_parser W P E args kind text w w1 L F K R).
Qed.

End PipelineFacts.


(** ** Facts on the words of a token sequence *)

Section WordFacts.

Lemma words_from_space_free (n r cur : string) :
  space_free n = true -> words_from cur (n ++ r) = words_from (cur ++ n) r.
Proof.
  revert cur. induction n as [|c n IH]; intros cur Hn; simpl.
  - now rewrite append_nil_r.
  - simpl in Hn. apply andb_prop in Hn. destruct Hn as [Hc Hn].
    apply negb_true_iff in Hc. rewrite Hc, (IH _ Hn), append_assoc.
    reflexivity.
Qed.

(** The name of a token: its suffix without the space in front. *)
Lemma words_from_render (ts : list Pragma) (cur : string) :
  words_from cur (render ts) =
  cur :: map (fun t => substring 1 (slen (pragma_suffix t) - 1) (pragma_suffix t)) ts.
Proof.
  revert cur. induction ts as [|t ts IH]; intros cur; [reflexivity |].
  cbn [render map].
  destruct (pragma_suffix_shape t) as (name & E & Hn). rewrite E.
  cbn [append words_from]. rewrite Ascii.eqb_refl.
  rewrite (words_from_space_free name (render ts) "" Hn). cbn [append].
  rewrite IH. f_equal. f_equal.
  change (name = substring 0 (slen name - 0) name).
  rewrite Nat.sub_0_r. symmetry. apply substring_0_all.
Qed.

Lemma selector_of_name (t : Pragma) :
  selector_of_word (substring 1 (slen (pragma_suffix t) - 1) (pragma_suffix t)) =
  match t with UseCaps f => Some f | _ => None end.
Proof. destruct t as [f| | | | |]; [destruct f |..]; vm_compute; reflexivity. Qed.

(** In a text made of tokens the selectors that appear as words are the
    selectors of the tokens. *)
Lemma selectors_in_render (ts : list Pragma) :
  selectors_in_text (render ts) = selectors_of ts.
Proof.
  unfold selectors_in_text, selectors_of. rewrite words_from_render.
  cbn [flat_map]. change (selector_of_word "") with (@None Factory). cbn [app].
  induction ts as [|t ts IH]; [reflexivity |].
  cbn [map flat_map]. rewrite selector_of_name, IH. now destruct t.
Qed.

Lemma first_caps_selectors (ts : list Pragma) :
  first_caps ts = hd_error (selectors_of ts) /\
  count_caps ts = List.length (selectors_of ts).
Proof.
  induction ts as [|t ts [IH1 IH2]]; [split; reflexivity |].
  destruct t; cbn; try (split; [exact IH1 | exact IH2]).
  split; [reflexivity | now rewrite IH2].
Qed.

End WordFacts.


(** ** Facts on the length that [base_name] appends *)

Section LengthFacts.

(** A path that ends with a suffix free of separators has a file name that
    ends with it. *)
Lemma file_name_ends (fpPath suffix : string) :
  separator_free suffix = true ->
  end_matches fpPath suffix = true ->
  exists x, file_name fpPath = x ++ suffix.
Proof.
  intros Fs Hm. change (endsWith fpPath suffix = true) in Hm.
  apply endsWith_iff in Hm. destruct Hm as [r Hr].
  destruct (file_name_spec fpPath) as (dir & Hp & Ff & Hd).
  remember (file_name fpPath) as file eqn:Ef. clear Ef.
  rewrite Hp in Hr.
  destruct (append_eq_append dir file r suffix Hr) as [(x & Hx & Hsx) | (x & Hx & Hsx)].
  - destruct (snoc_cases x) as [-> | (x' & l & ->)].
    + exists "". exact (eq_sym Hsx).
    + exfalso. destruct Hd as [-> | (d & c & Hdc & Hc)].
      * destruct r; [destruct x' |]; discriminate Hx.
      * rewrite Hdc, <- append_assoc in Hx.
        apply append_inv_tail in Hx; [| reflexivity].
        destruct Hx as [_ Hl]. injection Hl as <-.
        rewrite Hsx, !separator_free_append in Fs. cbn in Fs.
        rewrite Hc in Fs. cbn in Fs.
        rewrite andb_false_r in Fs. discriminate Fs.
  - exists x. exact Hsx.
Qed.

Lemma length_wraps_iff (fpPath prefix suffix : string) :
  length_wraps fpPath prefix suffix = true ->
  starts_with (file_name fpPath) prefix = true /\
  end_matches fpPath suffix = true /\
  slen (file_name fpPath) < slen prefix + slen suffix.
Proof.
  unfold length_wraps, file_name. intros H.
  apply andb_prop in H. destruct H as [H H3].
  apply andb_prop in H. destruct H as [H1 H2].
  apply Nat.ltb_lt in H3. rewrite advance_length. now repeat split.
Qed.

End LengthFacts.

(** * The properties *)

(** C1: the exit status of [main] is the code of the worst outcome among
    the jobs of the batch, run in order, where a job is a non-empty segment
    of the arguments between delimiters with [argv[0]] in front; [worst]
    picks a maximum for the order kSuccess = 0 < kCompileError = 1 <
    kInputError = 2 < kOutputError = 3 and is [kSuccess] for no outcome. The
    segment behind the last delimiter is a job although no delimiter
    follows it, and a batch without jobs exits with 0 and leaves the world
    alone. *)
Theorem exit_status_is_worst_outcome
    (W P : Type) (E : Env W P) (argv0 : string) (argv : list string) (w : W) :
  main E argv0 argv w =
    (outcomes <- run_jobs E (split_jobs argv0 [] argv) ;;
     ret (code (worst outcomes))) w /\
  (forall outcomes : list ResultCode,
     (forall r, In r outcomes -> (code r <= code (worst outcomes))%Z) /\
     (In (worst outcomes) outcomes \/ outcomes = [] /\ worst outcomes = kSuccess)) /\
  (code kSuccess = 0 /\ code kCompileError = 1 /\
   code kInputError = 2 /\ code kOutputError = 3)%Z /\
  (code (worst [kSuccess; kCompileError; kSuccess]) = 1 /\
   code (worst [kInputError; kOutputError]) = 3 /\
   code (worst []) = 0)%Z /\
  (forall pre seg : list string,
     seg <> [] -> ~ In "--" seg ->
     split_jobs argv0 [] seg = [argv0 :: seg] /\
     split_jobs argv0 [] (pre ++ "--" :: seg)%list =
       (split_jobs argv0 [] pre ++ [argv0 :: seg])%list) /\
  (split_jobs argv0 [] argv = [] -> main E argv0 argv w = (0%Z, w)).
Proof.
  assert (M : main E argv0 argv w =
              (outcomes <- run_jobs E (split_jobs argv0 [] argv) ;;
               ret (code (worst outcomes))) w)
    by exact (main_loop_jobs W P E argv0 argv [] kSuccess w).
  split; [exact M |]. split; [| split; [| split; [| split]]].
  - intros outcomes. unfold worst.
    destruct (fold_max_bounds outcomes kSuccess) as (_ & B2 & B3).
    split; [exact B2 |].
    destruct B3 as [B3 | B3]; [| now left].
    destruct outcomes as [|x l]; [now right |].
    left. destruct (fold_max_bounds (x :: l) kSuccess) as (_ & _ & [B | B]);
      [| exact B].
    rewrite B. destruct (fold_max_bounds (x :: l) kSuccess) as (_ & B4 & _).
    rewrite B in B4. assert (Hx : (code x <= code kSuccess)%Z) by (apply B4; now left).
    destruct x; cbv in Hx; try (now destruct Hx). now left.
  - repeat split.
  - repeat split.
  - intros pre seg Ne N.
    assert (S : split_jobs argv0 [] seg = [argv0 :: seg]).
    { apply (split_jobs_segment argv0 seg []); [exact N | exact Ne]. }
    split; [exact S |]. now rewrite split_jobs_delimiter, S.
  - intros Z. rewrite M, Z. reflexivity.
Qed.

Lemma exit_status_witness :
  split_jobs "skslc" [] ["a.sksl"; "a.glsl"; "--"; "--"; "b.frag"; "b.spirv"] =
    [["skslc"; "a.sksl"; "a.glsl"]; ["skslc"; "b.frag"; "b.spirv"]] /\
  main (logging_env (answers "" true)) "skslc" ["--"; "--"] [] = (0%Z, []) /\
  fst (main (logging_env (answers "" true)) "skslc"
         ["a.sksl"; "a.glsl"; "--"; "b.txt"; "b.glsl"; "--"; "c.frag"; "c.h"] []) =
    2%Z.
Proof.
  split; [| split].
  - apply (proj1 (proj2 (proj2 (proj2 (proj2
             (exit_status_is_worst_outcome _ _ (logging_env (answers "" true))
                "skslc" [] []))))))
      with (pre := ["a.sksl"; "a.glsl"; "--"]) (seg := ["b.frag"; "b.spirv"]).
    + discriminate.
    + simpl. intros [H | [H | H]]; [discriminate H | discriminate H | exact H].
  - apply (exit_status_is_worst_outcome _ _ (logging_env (answers "" true))
             "skslc" ["--"; "--"] []).
    reflexivity.
  - rewrite (proj1 (exit_status_is_worst_outcome _ _
                      (logging_env (answers "" true)) "skslc"
                      ["a.sksl"; "a.glsl"; "--"; "b.txt"; "b.glsl"; "--";
                       "c.frag"; "c.h"] [])).
    reflexivity.
Defined.

(** C2: when the text of the pragma comment, after some stripping passes,
    is a non-empty remainder on which a pass makes no progress, the pragma
    parser answers false and prints a line that names the remainder; a job
    that runs the parser on such a text returns [kInputError], and all it
    has done by then is to read the input and print that line: no compiler
    call, no output file. The text ["/*#pragma settings Bogus*/"] is such a
    text, with the remainder [" Bogus"]. *)
Theorem unrecognized_pragma_is_input_error
    (W P : Type) (E : Env W P) (text s rem : string) (n : nat) :
  settings_text text = Some s ->
  Nat.iter n strip_text s = rem -> rem <> "" -> strip_text rem = rem ->
  (forall o : Outputs,
     ok (detect_shader_settings text o) = false /\
     printed (detect_shader_settings text o) =
       Some ("Unrecognized #pragma settings: " ++ rem ++ LF)) /\
  (forall (args : list string) (kind : Kind) (w w1 : W),
     honors args ->
     input_kind (nth 1 args "") = Some kind ->
     read_input E (nth 1 args "") w = (Some text, w1) ->
     processCommand E args w =
       (sk_print E ("Unrecognized #pragma settings: " ++ rem ++ LF) ;;
        ret kInputError) w1) /\
  settings_text "/*#pragma settings Bogus*/" = Some " Bogus" /\
  strip_text " Bogus" = " Bogus".
Proof.
  intros T It Ne Fix.
  assert (D : forall o,
             ok (detect_shader_settings text o) = false /\
             printed (detect_shader_settings text o) =
               Some ("Unrecognized #pragma settings: " ++ rem ++ LF)).
  { intros o. unfold detect_shader_settings. rewrite T.
    exact (settings_loop_stuck n s rem o It Ne Fix). }
  split; [exact D |]. split; [| split; reflexivity].
  intros args kind w w1 H K R.
  rewrite (processCommand_honors W P E args H).
  unfold run_job. rewrite K. unfold bind at 1. rewrite R.
  match goal with
  | |- context [detect_shader_settings text ?o] => destruct (D o) as [D1 D2]
  end.
  rewrite D1, D2. reflexivity.
Qed.

Lemma unrecognized_pragma_witness :
  processCommand (logging_env (answers "/*#pragma settings Bogus*/" true))
    ["skslc"; "in.sksl"; "out.glsl"] [] =
  (kInputError,
   [ReadInput "in.sksl"; Stdout ("Unrecognized #pragma settings:  Bogus" ++ LF)]).
Proof.
  refine (proj1 (proj2 (unrecognized_pragma_is_input_error _ _ _
            "/*#pragma settings Bogus*/" " Bogus" " Bogus" 0 _ _ _ _))
          ["skslc"; "in.sksl"; "out.glsl"] kFragment_Kind []
          [ReadInput "in.sksl"] _ _ _).
  - reflexivity.
  - reflexivity.
  - discriminate.
  - reflexivity.
  - left. reflexivity.
  - reflexivity.
  - reflexivity.
Defined.

(** C3: a text with the comment [/*#pragma settings Default Sharpen*/] and
    the text that has [/*#pragma settings Sharpen Default*/] in its place,
    all else equal, make the pragma parser give the same answer, the same
    settings and the same capability reference (and print the same). With
    the comment alone, both select the [Default] capabilities and set the
    sharpen flag. *)
Theorem default_sharpen_in_either_order (pre post : string) (o : Outputs) :
  detect_shader_settings (pre ++ "/*#pragma settings Default Sharpen*/" ++ post) o =
  detect_shader_settings (pre ++ "/*#pragma settings Sharpen Default*/" ++ post) o /\
  detect_shader_settings "/*#pragma settings Default Sharpen*/" o =
    {| ok := true;
       outputs := {| settings := set_fSharpenTextures true (settings o);
                     caps := staticCaps Default |};
       printed := None |} /\
  detect_shader_settings "/*#pragma settings Sharpen Default*/" o =
    {| ok := true;
       outputs := {| settings := set_fSharpenTextures true (settings o);
                     caps := staticCaps Default |};
       printed := None |}.
Proof.
  split; [| split].
  - unfold detect_shader_settings, settings_text.
    rewrite !(c_str_append pre).
    destruct (nul_free pre); [| reflexivity].
    rewrite !(c_str_append "/*#pragma settings Default Sharpen*/"),
            !(c_str_append "/*#pragma settings Sharpen Default*/").
    cbn [nul_free Ascii.eqb Bool.eqb negb andb NUL].
    destruct (settings_ctx "Default Sharpen" "Sharpen Default"
                eq_refl eq_refl pre (c_str post)) as [Eq | (u0 & Hu & Eq1 & Eq2)].
    + change ("/*#pragma settings Default Sharpen*/" ++ c_str post)
        with ("/*#pragma settings" ++ String " "%char "Default Sharpen" ++ "*/" ++ c_str post).
      change ("/*#pragma settings Sharpen Default*/" ++ c_str post)
        with ("/*#pragma settings" ++ String " "%char "Sharpen Default" ++ "*/" ++ c_str post).
      now rewrite Eq.
    + change ("/*#pragma settings Default Sharpen*/" ++ c_str post)
        with ("/*#pragma settings" ++ String " "%char "Default Sharpen" ++ "*/" ++ c_str post).
      change ("/*#pragma settings Sharpen Default*/" ++ c_str post)
        with ("/*#pragma settings" ++ String " "%char "Sharpen Default" ++ "*/" ++ c_str post).
      rewrite Eq1, Eq2.
      change (String " "%char "Default Sharpen") with (render [UseCaps Default; Sharpen]).
      change (String " "%char "Sharpen Default") with (render [Sharpen; UseCaps Default]).
      rewrite !settings_loop_tokens by exact Hu. reflexivity.
  - exact (detect_tokens "/*#pragma settings Default Sharpen*/" ""
             [UseCaps Default; Sharpen] o eq_refl inert_empty).
  - exact (detect_tokens "/*#pragma settings Sharpen Default*/" ""
             [Sharpen; UseCaps Default] o eq_refl inert_empty).
Qed.

(** C4, amended: every settings text is a front [w] that no token
    matches (empty when every token is recognized) followed by tokens. Only those tokens are applied, one after the other from the
    right to the left; each selector among them, when its turn comes,
    overwrites the capability reference whatever it was. So the reference
    the parser leaves is that of the selector applied last: the leftmost
    selector behind the unrecognized front, or the reference as it was
    when no selector stands there. A selector inside the front is never
    applied. When the parser accepts the text, this is the leftmost
    selector that appears in the settings text. *)
Theorem last_processed_selector_wins (text s : string) (o : Outputs) :
  settings_text text = Some s ->
  (exists w ts, s = w ++ render ts /\ inert w) /\
  (forall w ts,
     s = w ++ render ts -> inert w ->
     let d := detect_shader_settings text o in
     ok d = (w =? "") /\
     outputs d = fold_right apply_pragma o ts /\
     caps (outputs d) =
       match hd_error (selectors_in_text (render ts)) with
       | Some f => staticCaps f
       | None => caps o
       end /\
     (ok d = true ->
      caps (outputs d) =
        match hd_error (selectors_in_text s) with
        | Some f => staticCaps f
        | None => caps o
        end) /\
     (forall before f after,
        ts = (before ++ UseCaps f :: after)%list ->
        caps (fold_right apply_pragma o (UseCaps f :: after)) = staticCaps f /\
        settings (fold_right apply_pragma o (UseCaps f :: after)) =
          settings (fold_right apply_pragma o after))).
Proof.
  intros T. split; [exact (settings_text_shape s) |].
  intros w ts Hs Hw d. subst s.
  assert (D : ok d = (w =? "") /\ outputs d = fold_right apply_pragma o ts).
  { subst d. rewrite (detect_tokens text w ts o T Hw).
    destruct (w =? ""); split; reflexivity. }
  destruct D as [D1 D2].
  assert (C : caps (outputs d) =
              match hd_error (selectors_in_text (render ts)) with
              | Some f => staticCaps f
              | None => caps o
              end).
  { rewrite D2, caps_fold_right, selectors_in_render.
    now rewrite (proj1 (first_caps_selectors ts)). }
  split; [exact D1 |]. split; [exact D2 |]. split; [exact C |]. split.
  - intros K. rewrite D1 in K. apply String.eqb_eq in K. subst w. exact C.
  - intros before f after _. split; reflexivity.
Qed.

Lemma last_processed_selector_witness :
  ok (detect_shader_settings "/*#pragma settings Default Bogus Version110*/"
        {| settings := default_settings 50 true; caps := standaloneCaps |}) = false /\
  caps (outputs
          (detect_shader_settings "/*#pragma settings Default Bogus Version110*/"
             {| settings := default_settings 50 true; caps := standaloneCaps |})) =
    staticCaps Version110.
Proof.
  assert (Hw : inert " Default Bogus").
  { intros p. destruct p as [f| | | | |]; [destruct f |..]; reflexivity. }
  destruct (proj2 (last_processed_selector_wins
                     "/*#pragma settings Default Bogus Version110*/"
                     " Default Bogus Version110"
                     {| settings := default_settings 50 true; caps := standaloneCaps |}
                     eq_refl)
              " Default Bogus" [UseCaps Version110] eq_refl Hw)
    as (H1 & _ & H2 & _).
  split; [exact H1 | exact H2].
Defined.

(** C4 as it was stated fails: in this pragma text three selectors appear,
    the leftmost of them is [Default], and the parser leaves the reference
    of [Version110], the selector it applied last before it met the
    unrecognized [Bogus]. *)
Lemma leftmost_selector_counterexample :
  settings_text "/*#pragma settings Default Bogus Version110 Version450Core*/" =
    Some " Default Bogus Version110 Version450Core" /\
  selectors_in_text " Default Bogus Version110 Version450Core" =
    [Default; Version110; Version450Core] /\
  caps (outputs
          (detect_shader_settings
             "/*#pragma settings Default Bogus Version110 Version450Core*/"
             {| settings := default_settings 50 true; caps := standaloneCaps |})) =
    staticCaps Version110 /\
  staticCaps Version110 <> staticCaps Default.
Proof.
  split; [reflexivity |]. split; [reflexivity |]. split; [reflexivity |].
  discriminate.
Qed.

(** C5: the kind of a job follows from the suffix of its input path:
    [.vert] gives the vertex kind, [.frag] and [.sksl] the fragment kind,
    [.geom] the geometry kind, [.fp] the fragment processor kind and
    [.stage] the pipeline stage kind. A path with none of these suffixes has
    no kind: the job prints a line that names the six suffixes, returns
    [kInputError] and does nothing else. *)
Theorem input_suffix_selects_kind :
  (forall stem : string,
     input_kind (stem ++ ".vert") = Some kVertex_Kind /\
     input_kind (stem ++ ".frag") = Some kFragment_Kind /\
     input_kind (stem ++ ".sksl") = Some kFragment_Kind /\
     input_kind (stem ++ ".geom") = Some kGeometry_Kind /\
     input_kind (stem ++ ".fp") = Some kFragmentProcessor_Kind /\
     input_kind (stem ++ ".stage") = Some kPipelineStage_Kind) /\
  (forall inputPath : string,
     (forall stem suffix,
        In suffix [".vert"; ".frag"; ".sksl"; ".geom"; ".fp"; ".stage"] ->
        inputPath <> stem ++ suffix) ->
     input_kind inputPath = None /\
     forall (W P : Type) (E : Env W P) (args : list string) (w : W),
       nth 1 args "" = inputPath ->
       fst (processCommand E args w) = kInputError /\
       (accepted args ->
        processCommand E args w = (sk_print E kind_text ;; ret kInputError) w)) /\
  (forall suffix,
     In suffix [".vert"; ".frag"; ".sksl"; ".geom"; ".fp"; ".stage"] ->
     occurs ("'" ++ suffix ++ "'") kind_text).
Proof.
  split; [| split].
  - intros stem. unfold input_kind. repeat split.
    + now rewrite endsWith_append.
    + other_suffix. now rewrite endsWith_append.
    + other_suffix. rewrite (endsWith_append stem ".sksl"). now rewrite orb_true_r.
    + do 3 other_suffix. now rewrite endsWith_append.
    + do 4 other_suffix. now rewrite endsWith_append.
    + do 5 other_suffix. now rewrite endsWith_append.
  - intros inputPath N.
    assert (K : input_kind inputPath = None).
    { unfold input_kind.
      rewrite !endsWith_false; [reflexivity |..]; intros stem; apply N; simpl; tauto. }
    split; [exact K |]. intros W P E args w <-.
    assert (J : forall honor, run_job E args honor w =
                              (sk_print E kind_text ;; ret kInputError) w)
      by (intros honor; unfold run_job; now rewrite K).
    assert (J' : forall honor, fst (run_job E args honor w) = kInputError).
    { intros honor. rewrite J. unfold bind, ret.
      now destruct (sk_print E kind_text w). }
    split.
    + unfold processCommand.
      destruct (List.length args =? 4)%nat.
      * destruct (nth 3 args "" =? "--settings"); [apply J' |].
        destruct (nth 3 args "" =? "--nosettings"); [apply J' |].
        unfold bind, ret.
        destruct (sk_print E _ w) as [u w1]. now destruct (show_usage E w1).
      * destruct (List.length args =? 3)%nat; cbn [negb]; [apply J' |].
        unfold bind, ret. now destruct (show_usage E w).
    + intros A.
      assert (R : processCommand E args = run_job E args true \/
                  processCommand E args = run_job E args false).
      { destruct A as [L | [L [F | F]]].
        - left. apply processCommand_honors. now left.
        - left. apply processCommand_honors. now right.
        - right. now apply processCommand_nosettings. }
      destruct R as [-> | ->]; apply J.
  - intros suffix H. simpl in H.
    destruct H as [<- | [<- | [<- | [<- | [<- | [<- | []]]]]]];
      eapply strstr_occurs; vm_compute; reflexivity.
Qed.

Lemma input_suffix_witness :
  input_kind "shader.txt" = None /\
  processCommand (logging_env (answers "" true))
    ["skslc"; "shader.txt"; "out.glsl"] [] =
  (kInputError, [Stdout kind_text]).
Proof.
  assert (N : forall stem suffix,
             In suffix [".vert"; ".frag"; ".sksl"; ".geom"; ".fp"; ".stage"] ->
             "shader.txt" <> stem ++ suffix).
  { intros stem suffix H E.
    assert (S : endsWith "shader.txt" suffix = true)
      by (apply endsWith_iff; now exists stem).
    destruct H as [<- | [<- | [<- | [<- | [<- | [<- | []]]]]]]; discriminate S. }
  split.
  - apply (proj1 (proj2 input_suffix_selects_kind) "shader.txt" N).
  - apply (proj2 (proj1 (proj2 input_suffix_selects_kind) "shader.txt" N)
             _ _ (logging_env (answers "" true))
             ["skslc"; "shader.txt"; "out.glsl"] [] eq_refl).
    left. reflexivity.
Defined.



(** C7: a shader text that does not contain the marker
    ["/*#pragma settings "] makes the pragma parser answer true without
    printing and without changing its outputs, whatever they were; so the
    default settings (every toggle false, the default inline threshold) and
    the standalone capabilities stay as they are. *)
Theorem detect_without_marker_changes_nothing (text : string) :
  ~ occurs kPragmaSettings text ->
  (forall o : Outputs,
     detect_shader_settings text o = {| ok := true; outputs := o; printed := None |}) /\
  (forall (threshold : Z) (replace : bool),
     let d := detect_shader_settings text
                {| settings := default_settings threshold replace;
                   caps := standaloneCaps |} in
     ok d = true /\
     fFlipY (settings (outputs d)) = false /\
     fForceHighPrecision (settings (outputs d)) = false /\
     fSharpenTextures (settings (outputs d)) = false /\
     fInlineThreshold (settings (outputs d)) = threshold /\
     fReplaceSettings (settings (outputs d)) = replace /\
     caps (outputs d) = standaloneCaps).
Proof.
  intros N.
  assert (G : forall o, detect_shader_settings text o =
                        {| ok := true; outputs := o; printed := None |}).
  { intros o. unfold detect_shader_settings.
    now rewrite (settings_text_no_marker text N). }
  split; [exact G |]. intros threshold replace d. subst d. rewrite G.
  cbn. repeat split.
Qed.

Lemma detect_without_marker_witness :
  detect_shader_settings "void main() { sk_FragColor = half4(1); }"
    {| settings := default_settings 50 true; caps := standaloneCaps |} =
  {| ok := true;
     outputs := {| settings := default_settings 50 true; caps := standaloneCaps |};
     printed := None |}.
Proof.
  apply (detect_without_marker_changes_nothing
           "void main() { sk_FragColor = half4(1); }").
  apply strstr_None. vm_compute. reflexivity.
Defined.

(** C8: [base_name] of ["a/b/GrFoo.fp"] with the prefix ["Gr"] and the
    suffix [".fp"] is ["Foo"]; for every path whose file name part does not
    start with the prefix, or whose end is not the suffix, [base_name] is
    the empty string. The file name part is what follows the last slash or
    backslash of the path. *)
Theorem base_name_derivation :
  base_name "a/b/GrFoo.fp" "Gr" ".fp" = "Foo" /\
  (forall fpPath prefix suffix : string,
     (forall rest, file_name fpPath <> prefix ++ rest) \/
     (forall stem, fpPath <> stem ++ suffix) ->
     base_name fpPath prefix suffix = "") /\
  (forall fpPath : string,
     exists dir,
       fpPath = dir ++ file_name fpPath /\
       separator_free (file_name fpPath) = true /\
       (dir = "" \/ exists d c, dir = d ++ String c "" /\ is_separator c = true)).
Proof.
  split; [reflexivity | split].
  - intros fpPath prefix suffix H. unfold base_name.
    change (advance (back_up fpPath (slen fpPath)) fpPath) with (file_name fpPath).
    destruct H as [H | H].
    + now rewrite (starts_with_false _ _ H).
    + change (end_matches fpPath suffix) with (endsWith fpPath suffix).
      rewrite (endsWith_false _ _ H). now rewrite andb_false_r.
  - exact file_name_spec.
Qed.

Lemma base_name_witness :
  base_name "a/b/Foo.fp" "Gr" ".fp" = "" /\
  base_name "a/b/GrFoo.frag" "Gr" ".fp" = "".
Proof.
  split.
  - apply (proj1 (proj2 base_name_derivation)). left.
    intros rest H. vm_compute in H. discriminate H.
  - apply (proj1 (proj2 base_name_derivation)). right.
    intros stem H.
    assert (S : endsWith "a/b/GrFoo.frag" ".fp" = true)
      by (apply endsWith_iff; now exists stem).
    discriminate S.
Defined.

(** C9: a job that passes the argument tests, reads its input, has its
    pragma accepted where the parser runs, opens its output and succeeds
    in every step of its pipeline (conversion and code generation, or the
    writing of the dehydrated module) ends with the final [close], and the
    answer of that [close] alone decides the result: [kSuccess] and nothing
    more when it succeeds; when it fails, the path is printed and the job
    returns [kOutputError] in place of the success. This holds for each of
    the six rows of [pipelines]. *)
Theorem close_failure_is_output_error
    (W P : Type) (E : Env W P) (args : list string) (stem suffix : string)
    (kind : Kind) (text : string) (o : Outputs) (flag : bool) (steps : M W bool)
    (closed : bool) (w w1 w2 w3 w4 w5 : W) :
  accepted args ->
  nth 2 args "" = stem ++ suffix ->
  input_kind (nth 1 args "") = Some kind ->
  read_input E (nth 1 args "") w = (Some text, w1) ->
  ((honors args /\
    ok (detect_shader_settings text (fresh_outputs E)) = true /\
    o = outputs (detect_shader_settings text (fresh_outputs E))) \/
   (~ honors args /\ o = fresh_outputs E)) ->
  In (suffix, flag, steps) (pipelines E (nth 1 args "") o kind text) ->
  out_open E (stem ++ suffix) w1 = (true, w2) ->
  newCompiler E (caps o) flag w2 = (tt, w3) ->
  steps w3 = (true, w4) ->
  out_close E w4 = (closed, w5) ->
  processCommand E args w =
    (if closed then (kSuccess, w5)
     else (sk_print E ("error writing '" ++ (stem ++ suffix) ++ "'" ++ LF) ;;
           ret kOutputError) w5) /\
  fst (processCommand E args w) = (if closed then kSuccess else kOutputError).
Proof.
  intros A Hout K R Hs Hrow Ho Hn Hw Hc.
  assert (G : processCommand E args w =
              (if closed then (kSuccess, w5)
               else (sk_print E ("error writing '" ++ (stem ++ suffix) ++ "'" ++ LF) ;;
                     ret kOutputError) w5)).
  { rewrite (job_reaches_backend W P E args kind text o w w1 A K R Hs), Hout.
    destruct (run_backend_row W P E (nth 1 args "") stem suffix o kind text
                flag steps Hrow)
      as [(emit & o' & Hcaps & -> & ->) | (-> & -> & ->)].
    - rewrite <- Hcaps in Hn.
      exact (compile_to_closes W P E (stem ++ suffix) o' flag kind text emit
               closed w1 w2 w3 w4 w5 Ho Hn Hw Hc).
    - exact (dehydrate_to_closes W P E (nth 1 args "") (stem ++ suffix) o kind
               closed w1 w2 w3 w4 w5 Ho Hn Hw Hc). }
  split; [exact G |]. rewrite G. destruct closed; [reflexivity |].
  unfold bind, ret. now destruct (sk_print E _ w5).
Qed.

Lemma close_failure_witness :
  processCommand (logging_env (answers "" false)) ["skslc"; "in.frag"; "out.glsl"] [] =
    (kOutputError,
     [ReadInput "in.frag"; OpenOutput "out.glsl"; NewCompiler standaloneCaps false;
      ConvertProgram standaloneCaps false kFragment_Kind (default_settings 50 true);
      Emit "toGLSL"; CloseOutput; Stdout ("error writing 'out.glsl'" ++ LF)]) /\
  fst (processCommand (logging_env (answers "" false))
         ["skslc"; "in.frag"; "out.glsl"] []) = kOutputError.
Proof.
  refine (close_failure_is_output_error _ _ (logging_env (answers "" false))
            ["skslc"; "in.frag"; "out.glsl"] "out" ".glsl" kFragment_Kind ""
            (fresh_outputs (logging_env (answers "" false))) false
            (convert_and_emit (logging_env (answers "" false))
               (fresh_outputs (logging_env (answers "" false))) false
               kFragment_Kind "" (toGLSL (logging_env (answers "" false))))
            false []
            [ReadInput "in.frag"]
            [ReadInput "in.frag"; OpenOutput "out.glsl"]
            [ReadInput "in.frag"; OpenOutput "out.glsl";
             NewCompiler standaloneCaps false]
            [ReadInput "in.frag"; OpenOutput "out.glsl";
             NewCompiler standaloneCaps false;
             ConvertProgram standaloneCaps false kFragment_Kind
               (default_settings 50 true);
             Emit "toGLSL"]
            [ReadInput "in.frag"; OpenOutput "out.glsl";
             NewCompiler standaloneCaps false;
             ConvertProgram standaloneCaps false kFragment_Kind
               (default_settings 50 true);
             Emit "toGLSL"; CloseOutput]
            _ _ _ _ _ _ _ _ _ _).
  - left. reflexivity.
  - reflexivity.
  - reflexivity.
  - reflexivity.
  - left. split; [left; reflexivity |]. split; reflexivity.
  - right. left. reflexivity.
  - reflexivity.
  - reflexivity.
  - reflexivity.
  - reflexivity.
Defined.

(** C10: a shader text that contains the marker but has no ["*/"] anywhere
    behind it makes the pragma parser answer true, without printing and
    without changing its outputs; no error is reported. *)
Theorem detect_without_terminator_changes_nothing (text : string) (o : Outputs) :
  occurs kPragmaSettings text ->
  (forall a b, text = a ++ kPragmaSettings ++ b -> ~ occurs "*/" b) ->
  detect_shader_settings text o = {| ok := true; outputs := o; printed := None |}.
Proof.
  intros _ N. unfold detect_shader_settings.
  now rewrite (settings_text_no_terminator text N).
Qed.

Lemma detect_without_terminator_witness :
  detect_shader_settings "half4 f(); /*#pragma settings NoInline Sharpen"
    {| settings := default_settings 50 true; caps := standaloneCaps |} =
  {| ok := true;
     outputs := {| settings := default_settings 50 true; caps := standaloneCaps |};
     printed := None |}.
Proof.
  apply detect_without_terminator_changes_nothing.
  - exists "half4 f(); ", "NoInline Sharpen". reflexivity.
  - intros a b H O.
    apply (strstr_None "half4 f(); /*#pragma settings NoInline Sharpen" "*/").
    + vm_compute. reflexivity.
    + rewrite H, <- append_assoc. now apply occurs_in_tail.
Defined.

(** * Further properties of the pragma parser *)

(** X1: the parser accepts a settings text exactly when it is a sequence
    of recognized tokens, each with one space in front. In general the text
    is a front that ends in no token, followed by tokens: the tokens are
    applied from the right to the left, and a non-empty front is what the
    parser prints when it answers false. *)
Theorem parser_accepts_exactly_token_sequences
    (text s : string) (o : Outputs) :
  settings_text text = Some s ->
  (ok (detect_shader_settings text o) = true <-> exists ts, s = render ts) /\
  (exists w ts,
     s = w ++ render ts /\ inert w /\
     outputs (detect_shader_settings text o) = fold_right apply_pragma o ts /\
     printed (detect_shader_settings text o) =
       if w =? "" then None
       else Some ("Unrecognized #pragma settings: " ++ w ++ LF)).
Proof.
  intros T. destruct (detect_shape text s o T) as (w & ts & E & I & D).
  split.
  - split.
    + intros K. rewrite D in K. destruct (w =? "") eqn:W; [| discriminate K].
      apply String.eqb_eq in W. subst w. now exists ts.
    + intros [ts' E'].
      rewrite (detect_tokens text "" ts' o); [reflexivity | | exact inert_empty].
      now rewrite T, E'.
  - exists w, ts. split; [exact E |]. split; [exact I |].
    rewrite D. destruct (w =? ""); split; reflexivity.
Qed.

Lemma parser_accepts_witness :
  ok (detect_shader_settings "/*#pragma settings FlipY NoInline*/ void main() {}"
        {| settings := default_settings 50 true; caps := standaloneCaps |}) = true.
Proof.
  apply (proj1 (parser_accepts_exactly_token_sequences
                  "/*#pragma settings FlipY NoInline*/ void main() {}"
                  " FlipY NoInline"
                  {| settings := default_settings 50 true; caps := standaloneCaps |}
                  eq_refl)).
  exists [FlipY; NoInline]. reflexivity.
Defined.

(** X2: whatever the text, the parser leaves the replace-settings flag
    alone, never clears a flag that was set, and leaves the capability
    reference either as it was or pointing to one of the factory-made
    instances. *)
Theorem parser_only_sets (text : string) (o : Outputs) :
  fReplaceSettings (settings (outputs (detect_shader_settings text o))) =
    fReplaceSettings (settings o) /\
  (fFlipY (settings o) = true ->
   fFlipY (settings (outputs (detect_shader_settings text o))) = true) /\
  (fForceHighPrecision (settings o) = true ->
   fForceHighPrecision (settings (outputs (detect_shader_settings text o))) = true) /\
  (fSharpenTextures (settings o) = true ->
   fSharpenTextures (settings (outputs (detect_shader_settings text o))) = true) /\
  (caps (outputs (detect_shader_settings text o)) = caps o \/
   exists f, caps (outputs (detect_shader_settings text o)) = staticCaps f).
Proof.
  destruct (settings_text text) as [s|] eqn:T.
  - destruct (detect_shape text s o T) as (w & ts & _ & _ & D).
    assert (O : outputs (detect_shader_settings text o) =
                fold_right apply_pragma o ts)
      by (rewrite D; now destruct (w =? "")).
    rewrite O. split; [apply fold_fReplaceSettings |].
    split; [intros H; now rewrite fold_fFlipY, H |].
    split; [intros H; now rewrite fold_fForceHighPrecision, H |].
    split; [intros H; now rewrite fold_fSharpenTextures, H |].
    rewrite caps_fold_right. destruct (first_caps ts) as [f|];
      [right; now exists f | now left].
  - unfold detect_shader_settings. rewrite T. cbn [outputs].
    repeat split; trivial. now left.
Qed.

Lemma parser_only_sets_witness :
  fFlipY (settings (outputs
    (detect_shader_settings "/*#pragma settings Sharpen Bogus NoInline*/"
       {| settings := set_fFlipY true (default_settings 50 true);
          caps := standaloneCaps |}))) = true.
Proof.
  apply (parser_only_sets "/*#pragma settings Sharpen Bogus NoInline*/"
           {| settings := set_fFlipY true (default_settings 50 true);
              caps := standaloneCaps |}).
  reflexivity.
Defined.

(** X3: two settings texts with the same tokens in a different order give
    the same answer and the same outputs, as long as the leftmost capability
    selector and the leftmost inline-threshold token are the same in
    both. *)
Theorem token_order_is_irrelevant
    (text text' : string) (ts ts' : list Pragma) (o : Outputs) :
  settings_text text = Some (render ts) ->
  settings_text text' = Some (render ts') ->
  Permutation ts ts' ->
  first_caps ts = first_caps ts' ->
  first_threshold ts = first_threshold ts' ->
  detect_shader_settings text o = detect_shader_settings text' o.
Proof.
  intros T T' Perm C Th.
  rewrite (detect_tokens text "" ts o T inert_empty).
  rewrite (detect_tokens text' "" ts' o T' inert_empty).
  cbn [String.eqb]. f_equal. apply outputs_ext.
  - rewrite !fold_fFlipY. now rewrite (existsb_permutation _ _ _ Perm).
  - rewrite !fold_fForceHighPrecision. now rewrite (existsb_permutation _ _ _ Perm).
  - rewrite !fold_fInlineThreshold. now rewrite Th.
  - rewrite !fold_fSharpenTextures. now rewrite (existsb_permutation _ _ _ Perm).
  - now rewrite !fold_fReplaceSettings.
  - rewrite !caps_fold_right. now rewrite C.
Qed.

Lemma token_order_witness :
  detect_shader_settings "/*#pragma settings FlipY Version110 NoInline*/"
    {| settings := default_settings 50 true; caps := standaloneCaps |} =
  detect_shader_settings "/*#pragma settings NoInline FlipY Version110*/"
    {| settings := default_settings 50 true; caps := standaloneCaps |}.
Proof.
  apply (token_order_is_irrelevant
           "/*#pragma settings FlipY Version110 NoInline*/"
           "/*#pragma settings NoInline FlipY Version110*/"
           [FlipY; UseCaps Version110; NoInline]
           [NoInline; FlipY; UseCaps Version110]).
  - reflexivity.
  - reflexivity.
  - exact (Permutation_app_comm [FlipY; UseCaps Version110] [NoInline]).
  - reflexivity.
  - reflexivity.
Defined.

(** X4: running the parser a second time on the same text, starting from
    the outputs of the first run, gives the same answer, the same outputs
    and the same printed line as the first run. *)
Theorem parser_is_idempotent (text : string) (o : Outputs) :
  detect_shader_settings text (outputs (detect_shader_settings text o)) =
  detect_shader_settings text o.
Proof.
  destruct (settings_text text) as [s|] eqn:T.
  - destruct (detect_shape text s o T) as (w & ts & E & I & D).
    assert (T' : settings_text text = Some (w ++ render ts)) by now rewrite T, E.
    rewrite (detect_tokens text w ts _ T' I), D.
    destruct (w =? ""); cbn [outputs]; now rewrite fold_apply_twice.
  - unfold detect_shader_settings. now rewrite T.
Qed.

(** X5: the parser reads the text as a C string: a NUL character and all
    that follows it make no difference to the answer, the outputs and the
    printed line. *)
Theorem parser_stops_at_nul (a b : string) (o : Outputs) :
  detect_shader_settings (a ++ String NUL b) o = detect_shader_settings a o.
Proof.
  unfold detect_shader_settings, settings_text. now rewrite c_str_cut.
Qed.

(** X6: only the first pragma comment counts: once a text holds the marker
    and a terminator behind it, whatever is appended to the text (a second
    pragma comment, say) leaves the answer, the outputs and the printed
    line as they are. *)
Theorem parser_reads_first_comment_only (a s b : string) (o : Outputs) :
  settings_text a = Some s ->
  detect_shader_settings (a ++ b) o = detect_shader_settings a o.
Proof.
  intros T. unfold detect_shader_settings.
  now rewrite (settings_text_append a s b T), T.
Qed.

Lemma parser_first_comment_witness :
  detect_shader_settings
    ("/*#pragma settings NoInline*/" ++ " /*#pragma settings Bogus FlipY*/")
    {| settings := default_settings 50 true; caps := standaloneCaps |} =
  detect_shader_settings "/*#pragma settings NoInline*/"
    {| settings := default_settings 50 true; caps := standaloneCaps |}.
Proof.
  apply (parser_reads_first_comment_only "/*#pragma settings NoInline*/" " NoInline").
  reflexivity.
Defined.

(** * Further properties of [base_name] *)

(** X7: for a path made of a directory part (empty, or ending in a slash
    or backslash), the prefix, a base and the suffix, where the three
    together hold no slash and no backslash, [base_name] is the base. *)
Theorem base_name_of_prefix_base_suffix (dir prefix base suffix : string) :
  separator_free (prefix ++ base ++ suffix) = true ->
  (dir = "" \/ exists d c, dir = d ++ String c "" /\ is_separator c = true) ->
  base_name (dir ++ prefix ++ base ++ suffix) prefix suffix = base.
Proof. exact (base_name_of_parts dir prefix base suffix). Qed.

Lemma base_name_of_prefix_base_suffix_witness :
  base_name ("src/gpu/effects/" ++ "Gr" ++ "FooFragmentProcessor" ++ ".fp")
    "Gr" ".fp" = "FooFragmentProcessor".
Proof.
  apply base_name_of_prefix_base_suffix.
  - reflexivity.
  - right. exists "src/gpu/effects", "/"%char. split; reflexivity.
Defined.

(** X8: when the file name part of the path starts with the prefix, the
    path ends with the suffix and the two fit into the file name side by
    side, the file name part is the prefix, the result of [base_name] and
    the suffix in a row: nothing of the name is lost or added. *)
Theorem base_name_is_the_middle (fpPath prefix suffix : string) :
  (exists rest, file_name fpPath = prefix ++ rest) ->
  (exists stem, fpPath = stem ++ suffix) ->
  slen prefix + slen suffix <= slen (file_name fpPath) ->
  file_name fpPath = prefix ++ base_name fpPath prefix suffix ++ suffix.
Proof. exact (base_name_middle fpPath prefix suffix). Qed.

Lemma base_name_is_the_middle_witness :
  file_name "include\private\GrBar.fp" =
  "Gr" ++ base_name "include\private\GrBar.fp" "Gr" ".fp" ++ ".fp".
Proof.
  apply base_name_is_the_middle.
  - exists "Bar.fp". reflexivity.
  - exists "include\private\GrBar". reflexivity.
  - vm_compute. lia.
Defined.

(** * Further properties of the batch *)

(** X9: a batch made of two batches with a delimiter between them exits
    with the larger of the two exit statuses the batches have when they are
    run one after the other; so a delimiter in front of a batch or behind
    it changes nothing. *)
Theorem batches_compose
    (W P : Type) (E : Env W P) (argv0 : string) (argv1 argv2 : list string) (w : W) :
  main E argv0 (argv1 ++ "--" :: argv2)%list w =
    (c1 <- main E argv0 argv1 ;;
     c2 <- main E argv0 argv2 ;;
     ret (Z.max c1 c2)) w /\
  main E argv0 ("--" :: argv2) w = main E argv0 argv2 w /\
  main E argv0 (argv1 ++ ["--"])%list w = main E argv0 argv1 w.
Proof.
  assert (G : forall a1 a2 w0,
            main E argv0 (a1 ++ "--" :: a2)%list w0 =
            (c1 <- main E argv0 a1 ;; c2 <- main E argv0 a2 ;;
             ret (Z.max c1 c2)) w0).
  { intros a1 a2 w0. rewrite main_jobs, split_jobs_delimiter.
    unfold bind, ret. rewrite run_jobs_app.
    rewrite (main_jobs W P E argv0 a1 w0). unfold bind, ret.
    destruct (run_jobs E (split_jobs argv0 [] a1) w0) as [o1 w1].
    rewrite (main_jobs W P E argv0 a2 w1). unfold bind, ret.
    destruct (run_jobs E (split_jobs argv0 [] a2) w1) as [o2 w2].
    now rewrite code_worst_app. }
  split; [apply G |]. split.
  - pose proof (G [] argv2 w) as G0. cbn [app] in G0. rewrite G0.
    unfold bind, ret. cbn.
    destruct (main E argv0 argv2 w) as [c w'] eqn:M.
    rewrite main_jobs in M. unfold bind, ret in M.
    destruct (run_jobs E (split_jobs argv0 [] argv2) w) as [o w''].
    injection M as <- <-. pose proof (code_worst_range o). f_equal. lia.
  - rewrite (G argv1 [] w). unfold bind, ret.
    destruct (main E argv0 argv1 w) as [c w'] eqn:M. cbn.
    rewrite main_jobs in M. unfold bind, ret in M.
    destruct (run_jobs E (split_jobs argv0 [] argv1) w) as [o w''].
    injection M as <- <-. pose proof (code_worst_range o). f_equal. lia.
Qed.

(** X10: [main] calls [processCommand] only with lists that start with
    [argv[0]], hold at least one more argument and do not hold the
    delimiter; the arguments of the calls, one call after the other, are the
    arguments of [main] without the delimiters, in their order. *)
Theorem jobs_partition_the_arguments
    (W P : Type) (E : Env W P) (argv0 : string) (argv : list string) (w : W) :
  main E argv0 argv w =
    (outcomes <- run_jobs E (split_jobs argv0 [] argv) ;;
     ret (code (worst outcomes))) w /\
  (forall job, In job (split_jobs argv0 [] argv) ->
     exists seg, job = argv0 :: seg /\ seg <> [] /\ ~ In "--" seg) /\
  concat (map (@tl string) (split_jobs argv0 [] argv)) =
    filter (fun arg => negb (arg =? "--")) argv.
Proof.
  split; [apply main_jobs |].
  exact (split_jobs_spec argv0 argv [] (fun H => H)).
Qed.

Lemma jobs_partition_witness :
  exists seg, ["skslc"; "b.frag"; "b.glsl"] = "skslc" :: seg /\ seg <> [] /\
              ~ In "--" seg.
Proof.
  apply (proj1 (proj2 (jobs_partition_the_arguments _ _ (logging_env (answers "" true))
                         "skslc" ["a.frag"; "a.glsl"; "--"; "b.frag"; "b.glsl"] []))).
  cbn. right. left. reflexivity.
Defined.

(** X11: the exit status of [main] is one of 0, 1, 2 and 3, and it is 0
    exactly when every job of the batch returned [kSuccess]. *)
Theorem exit_status_zero_means_all_succeeded
    (W P : Type) (E : Env W P) (argv0 : string) (argv : list string) (w : W) :
  (0 <= fst (main E argv0 argv w) <= 3)%Z /\
  (fst (main E argv0 argv w) = 0%Z <->
   forall r, In r (fst (run_jobs E (split_jobs argv0 [] argv) w)) -> r = kSuccess).
Proof.
  rewrite main_jobs. unfold bind, ret.
  destruct (run_jobs E (split_jobs argv0 [] argv) w) as [o w']. cbn [fst].
  split; [apply code_worst_range | apply worst_success].
Qed.

Lemma exit_status_zero_witness :
  fst (main (logging_env (answers "" true)) "skslc"
         ["a.frag"; "a.glsl"; "--"; "b.frag"; "b.spirv"] []) = 0%Z.
Proof.
  apply (proj2 (proj2 (exit_status_zero_means_all_succeeded _ _
                         (logging_env (answers "" true)) "skslc"
                         ["a.frag"; "a.glsl"; "--"; "b.frag"; "b.spirv"] []))).
  intros r H. vm_compute in H. destruct H as [<- | [<- | []]]; reflexivity.
Defined.

(** * Further properties of a job *)

(** X12: in each of the six pipelines, when the output cannot be opened,
    the compiler is still constructed (it is constructed before the
    stream's validity is tested), with the flag of the pipeline; then the
    job prints the path and returns [kOutputError]. That is all the job
    does after the failed open: no program is converted, no module is
    loaded, nothing is written or closed. *)
Theorem open_failure_is_output_error
    (W P : Type) (E : Env W P) (inputPath stem suffix : string) (o : Outputs)
    (kind : Kind) (text : string) (flag : bool) (steps : M W bool) (w w1 : W) :
  In (suffix, flag, steps) (pipelines E inputPath o kind text) ->
  out_open E (stem ++ suffix) w = (false, w1) ->
  run_backend E inputPath (stem ++ suffix) o kind text w =
    (newCompiler E (caps o) flag ;;
     sk_print E ("error writing '" ++ (stem ++ suffix) ++ "'" ++ LF) ;;
     ret kOutputError) w1.
Proof.
  intros Hrow O.
  destruct (run_backend_row W P E inputPath stem suffix o kind text flag steps Hrow)
    as [(emit & o' & Hcaps & _ & ->) | (-> & _ & ->)].
  - unfold compile_to. unfold bind at 1. rewrite O, Hcaps. reflexivity.
  - unfold dehydrate_to. unfold bind at 1. rewrite O. reflexivity.
Qed.

Lemma open_failure_witness :
  run_backend (logging_env (answers_with "" false true true true ""))
    "in.frag" ("out" ++ ".metal")
    {| settings := default_settings 50 true; caps := standaloneCaps |}
    kFragment_Kind "" [] =
  (kOutputError,
   [OpenOutput "out.metal"; NewCompiler standaloneCaps false;
    Stdout ("error writing 'out.metal'" ++ LF)]).
Proof.
  refine (open_failure_is_output_error _ _
            (logging_env (answers_with "" false true true true ""))
            "in.frag" "out" ".metal"
            {| settings := default_settings 50 true; caps := standaloneCaps |}
            kFragment_Kind "" false
            (convert_and_emit (logging_env (answers_with "" false true true true ""))
               {| settings := default_settings 50 true; caps := standaloneCaps |}
               false kFragment_Kind ""
               (toMetal (logging_env (answers_with "" false true true true ""))))
            [] [OpenOutput "out.metal"] _ _).
  - right. right. left. reflexivity.
  - reflexivity.
Defined.

(** X13: in the five compiling pipelines, when the output is open, the
    compiler is constructed, and the compiler gives no program, or gives
    one that the code generator rejects, the job asks for the error text,
    closes the output, writes the banner and the error text to a fresh
    stream on the same path, echoes the error on stdout and returns
    [kCompileError], whether or not those writes and closes succeed.
    Without a program the code generator is not called. *)
Theorem compile_failure_is_compile_error
    (W P : Type) (E : Env W P) (outputPath : string) (o : Outputs) (flag : bool)
    (kind : Kind) (text : string) (emit : P -> M W bool) (w w0 w1 w2 : W) :
  out_open E outputPath w = (true, w0) ->
  newCompiler E (caps o) flag w0 = (tt, w1) ->
  (convertProgram E (caps o) flag kind text (settings o) w1 = (None, w2) \/
   exists p w', convertProgram E (caps o) flag kind text (settings o) w1 = (Some p, w') /\
                emit p w' = (false, w2)) ->
  compile_to E outputPath o flag kind text emit w =
    (err <- errorText E ;;
     _ <- out_close E ;;
     _ <- out_open E outputPath ;;
     out_write E ("### Compilation failed:" ++ LF ++ LF) ;;
     out_write E err ;;
     _ <- out_close E ;;
     sk_print E (err ++ LF) ;;
     ret kCompileError) w2 /\
  fst (compile_to E outputPath o flag kind text emit w) = kCompileError.
Proof.
  intros O N F.
  assert (G : compile_to E outputPath o flag kind text emit w =
              (err <- errorText E ;; emitCompileError E outputPath err ;;
               ret kCompileError) w2).
  { unfold compile_to. unfold bind at 1. rewrite O.
    unfold bind at 1. rewrite N. cbn [negb].
    unfold bind at 1. destruct F as [F | (p & w' & F & F')]; rewrite F.
    - unfold bind at 1. unfold ret at 1. reflexivity.
    - unfold bind at 1. rewrite F'. reflexivity. }
  rewrite G. split.
  - unfold emitCompileError, bind, ret.
    destruct (errorText E w2) as [err w3].
    destruct (out_close E w3) as [c1 w4].
    destruct (out_open E outputPath w4) as [v w5].
    destruct (out_write E _ w5) as [u1 w6].
    destruct (out_write E err w6) as [u2 w7].
    destruct (out_close E w7) as [c2 w8].
    now destruct (sk_print E (err ++ LF) w8).
  - unfold emitCompileError, bind, ret.
    destruct (errorText E w2) as [err w3].
    destruct (out_close E w3) as [c1 w4].
    destruct (out_open E outputPath w4) as [v w5].
    destruct (out_write E _ w5) as [u1 w6].
    destruct (out_write E err w6) as [u2 w7].
    destruct (out_close E w7) as [c2 w8].
    now destruct (sk_print E (err ++ LF) w8).
Qed.

Lemma compile_failure_witness :
  compile_to
    (logging_env (answers_with "" true false true false "error: 1: unknown identifier"))
    "out.glsl" {| settings := default_settings 50 true; caps := standaloneCaps |}
    false kFragment_Kind "x"
    (toGLSL (logging_env
               (answers_with "" true false true false "error: 1: unknown identifier")))
    [] =
  (kCompileError,
   [OpenOutput "out.glsl"; NewCompiler standaloneCaps false;
    ConvertProgram standaloneCaps false kFragment_Kind (default_settings 50 true);
    ErrorText; CloseOutput; OpenOutput "out.glsl";
    WriteOutput ("### Compilation failed:" ++ LF ++ LF);
    WriteOutput "error: 1: unknown identifier";
    CloseOutput;
    Stdout ("error: 1: unknown identifier" ++ LF)]).
Proof.
  refine (proj1 (compile_failure_is_compile_error _ _
            (logging_env
               (answers_with "" true false true false "error: 1: unknown identifier"))
            "out.glsl"
            {| settings := default_settings 50 true; caps := standaloneCaps |}
            false kFragment_Kind "x" _ []
            [OpenOutput "out.glsl"]
            [OpenOutput "out.glsl"; NewCompiler standaloneCaps false]
            [OpenOutput "out.glsl"; NewCompiler standaloneCaps false;
             ConvertProgram standaloneCaps false kFragment_Kind
               (default_settings 50 true)] _ _ _)).
  - reflexivity.
  - reflexivity.
  - left. reflexivity.
Defined.

(** * The log of a job *)

(** X14: in the logging world a job returns [kSuccess] exactly when it
    prints nothing on stdout: every failure has its diagnostic and a
    success is silent. *)
Theorem success_is_silent (a : Answers) (args : list string) :
  fst (processCommand (logging_env a) args []) = kSuccess <->
  existsb is_stdout (snd (processCommand (logging_env a) args [])) = false.
Proof. exact (run_silent a _ _ _ _ (job_log a args)). Qed.

(** X15: a job returns [kInputError] exactly when it never opens an
    output: wrong argument counts and flags, unknown input and output
    suffixes, unreadable inputs and unrecognized pragmas are all found
    before the output file is touched, and every other outcome comes after
    the open. *)
Theorem input_error_never_opens_output (a : Answers) (args : list string) :
  fst (processCommand (logging_env a) args []) = kInputError <->
  existsb is_open (snd (processCommand (logging_env a) args [])) = false.
Proof. exact (run_opens a _ _ _ _ (job_log a args)). Qed.

(** X16: a job returns [kCompileError] exactly when it asks the compiler
    for its error text, and then the last things it does are: close the
    output, open the output path again, write the banner and the error
    text, close, and print the error text with a line feed. *)
Theorem compile_error_rewrites_output (a : Answers) (args : list string) :
  (fst (processCommand (logging_env a) args []) = kCompileError <->
   existsb is_error_text (snd (processCommand (logging_env a) args [])) = true) /\
  (fst (processCommand (logging_env a) args []) = kCompileError ->
   exists pre,
     snd (processCommand (logging_env a) args []) =
     (pre ++ [CloseOutput; OpenOutput (nth 2 args "");
              WriteOutput ("### Compilation failed:" ++ LF ++ LF);
              WriteOutput (error_text a); CloseOutput;
              Stdout (error_text a ++ LF)])%list).
Proof. exact (run_error_text a _ _ _ _ (job_log a args)). Qed.

Lemma compile_error_witness :
  exists pre,
    snd (processCommand (logging_env (answers_with "x" true false true true "bad"))
           ["skslc"; "in.frag"; "out.glsl"] []) =
    (pre ++ [CloseOutput; OpenOutput "out.glsl";
             WriteOutput ("### Compilation failed:" ++ LF ++ LF);
             WriteOutput "bad"; CloseOutput; Stdout ("bad" ++ LF)])%list.
Proof.
  apply (proj2 (compile_error_rewrites_output
                  (answers_with "x" true false true true "bad")
                  ["skslc"; "in.frag"; "out.glsl"])).
  reflexivity.
Defined.

(** X17: a job that does anything besides printing reads its input first,
    from [args[1]], and reads nothing afterwards. *)
Theorem input_is_read_first_and_once (a : Answers) (args : list string) :
  existsb (fun e => negb (is_stdout e))
    (snd (processCommand (logging_env a) args [])) = true ->
  exists rest,
    snd (processCommand (logging_env a) args []) = ReadInput (nth 1 args "") :: rest /\
    existsb is_read rest = false.
Proof. exact (run_reads_first a _ _ _ _ (job_log a args)). Qed.

Lemma input_is_read_first_witness :
  exists rest,
    snd (processCommand (logging_env (answers "" true))
           ["skslc"; "in.frag"; "out.glsl"] []) = ReadInput "in.frag" :: rest /\
    existsb is_read rest = false.
Proof.
  apply (input_is_read_first_and_once (answers "" true)
           ["skslc"; "in.frag"; "out.glsl"]).
  reflexivity.
Defined.

(** X18: a job calls the compiler ([convertProgram], or the loading and
    dehydrating of a module) at most once, only when the output at
    [args[2]] has been opened and is valid, and as the first thing after
    that open and the construction of the compiler. *)
Theorem compiler_runs_once_after_open (a : Answers) (args : list string) :
  existsb is_compile (snd (processCommand (logging_env a) args [])) = true ->
  output_valid a (nth 2 args "") = true /\
  exists c f e rest,
    snd (processCommand (logging_env a) args []) =
      ReadInput (nth 1 args "") :: OpenOutput (nth 2 args "") ::
      NewCompiler c f :: e :: rest /\
    is_compile e = true /\ existsb is_compile rest = false.
Proof. exact (run_compiles_once a _ _ _ _ (job_log a args)). Qed.

Lemma compiler_runs_once_witness :
  output_valid (answers "" true) "out.dehydrated.sksl" = true /\
  exists c f e rest,
    snd (processCommand (logging_env (answers "" true))
           ["skslc"; "in.sksl"; "out.dehydrated.sksl"] []) =
      ReadInput "in.sksl" :: OpenOutput "out.dehydrated.sksl" ::
      NewCompiler c f :: e :: rest /\
    is_compile e = true /\ existsb is_compile rest = false.
Proof.
  apply (compiler_runs_once_after_open (answers "" true)
           ["skslc"; "in.sksl"; "out.dehydrated.sksl"]).
  reflexivity.
Defined.

(** X19: a job opens no path but [args[2]]. When the open fails the job
    never calls [close]; when it succeeds, the last thing the job does,
    apart from printing, is a [close], whatever the outcome. *)
Theorem output_is_left_closed (a : Answers) (args : list string) :
  (forall p, In (OpenOutput p) (snd (processCommand (logging_env a) args [])) ->
     p = nth 2 args "") /\
  (existsb is_open (snd (processCommand (logging_env a) args [])) = true ->
   if output_valid a (nth 2 args "")
   then exists pre lines,
          snd (processCommand (logging_env a) args []) =
          (pre ++ CloseOutput :: map Stdout lines)%list
   else existsb is_close (snd (processCommand (logging_env a) args [])) = false).
Proof. exact (run_closes a _ _ _ _ (job_log a args)). Qed.

Lemma output_is_left_closed_witness :
  existsb is_close
    (snd (processCommand (logging_env (answers_with "" false true true true ""))
            ["skslc"; "in.frag"; "out.spirv"; "--nosettings"] [])) = false.
Proof.
  apply (proj2 (output_is_left_closed (answers_with "" false true true true "")
                  ["skslc"; "in.frag"; "out.spirv"; "--nosettings"])).
  reflexivity.
Defined.

(** X20: what [convertProgram] is called with. The kind is the one the
    input suffix selects; the capabilities are those the pragma parser left
    (the standalone ones under [--nosettings]); [permitInvalidStaticTests]
    is passed exactly for the [.h] and [.cpp] outputs; the settings are
    those the parser left, with [fReplaceSettings] cleared for the [.h] and
    [.cpp] outputs, whatever the pragma and the default say. *)
Theorem compiler_call_arguments (a : Answers) (args : list string)
    (c : ShaderCaps) (f : bool) (k : Kind) (s : Settings) :
  In (ConvertProgram c f k s) (snd (processCommand (logging_env a) args [])) ->
  exists text,
    input_of a (nth 1 args "") = Some text /\
    input_kind (nth 1 args "") = Some k /\
    c = caps (job_outputs a args text) /\
    f = (endsWith (nth 2 args "") ".h" || endsWith (nth 2 args "") ".cpp") /\
    s = (if f then set_fReplaceSettings false (settings (job_outputs a args text))
         else settings (job_outputs a args text)) /\
    (f = true -> fReplaceSettings s = false).
Proof.
  destruct (job_run a args) as (r & l & _ & R & C). rewrite (R []). cbn [snd app].
  intros H. destruct (C c f k s H) as (kind & text & K & T & Q).
  unfold call_of, header_output in Q. injection Q as -> -> -> ->.
  exists text. repeat (split; [first [assumption | reflexivity] |]).
  intros F. rewrite F. reflexivity.
Qed.

Lemma compiler_call_witness :
  exists text,
    input_of (answers "/*#pragma settings Sharpen*/" true) "in.fp" = Some text /\
    input_kind "in.fp" = Some kFragmentProcessor_Kind /\
    standaloneCaps =
      caps (job_outputs (answers "/*#pragma settings Sharpen*/" true)
              ["skslc"; "in.fp"; "GrIn.h"] text) /\
    true = (endsWith "GrIn.h" ".h" || endsWith "GrIn.h" ".cpp") /\
    set_fReplaceSettings false (set_fSharpenTextures true (default_settings 50 true)) =
      (if true
       then set_fReplaceSettings false
              (settings (job_outputs (answers "/*#pragma settings Sharpen*/" true)
                           ["skslc"; "in.fp"; "GrIn.h"] text))
       else settings (job_outputs (answers "/*#pragma settings Sharpen*/" true)
                        ["skslc"; "in.fp"; "GrIn.h"] text)) /\
    (true = true ->
     fReplaceSettings
       (set_fReplaceSettings false
          (set_fSharpenTextures true (default_settings 50 true))) = false).
Proof.
  apply (compiler_call_arguments (answers "/*#pragma settings Sharpen*/" true)
           ["skslc"; "in.fp"; "GrIn.h"] standaloneCaps true kFragmentProcessor_Kind
           (set_fReplaceSettings false
              (set_fSharpenTextures true (default_settings 50 true)))).
  vm_compute. right. right. right. left. reflexivity.
Defined.

(** * The log of a batch *)

(** X21: in the logging world the log of a batch is the logs of its jobs
    one after the other, each as the job would write it when run alone on
    an empty log, and the exit status is the worst of the outcomes the jobs
    have when run alone: [main] does nothing between jobs, a failed job
    neither stops the batch nor changes what a later job does. *)
Theorem batch_log_is_jobs_logs (a : Answers) (argv0 : string) (argv : list string)
    (w : list Event) :
  main (logging_env a) argv0 argv w =
  (code (worst (map (fun job => fst (processCommand (logging_env a) job []))
                  (split_jobs argv0 [] argv))),
   (w ++ concat (map (fun job => snd (processCommand (logging_env a) job []))
                   (split_jobs argv0 [] argv)))%list).
Proof.
  rewrite main_jobs. unfold bind, ret. rewrite run_jobs_log. reflexivity.
Qed.

(** * The length that [base_name] appends *)

(** X22: on the two calls of [base_name] in [processCommand], with ["Gr"]
    and [".fp"] on the C string of the input path and with the empty
    prefix and [".sksl"] on the input path, the length handed to [append]
    never wraps around, whatever the path: a file name that starts with
    ["Gr"] and ends with [".fp"] has at least five characters, and one
    that ends with [".sksl"] has at least five. *)
Theorem driver_lengths_never_wrap (inputPath : string) :
  length_wraps (c_str inputPath) "Gr" ".fp" = false /\
  length_wraps inputPath "" ".sksl" = false.
Proof.
  split.
  - destruct (length_wraps (c_str inputPath) "Gr" ".fp") eqn:H; [| reflexivity].
    exfalso. apply length_wraps_iff in H. destruct H as (H1 & H2 & H3).
    apply starts_with_iff in H1. destruct H1 as [b Hb].
    destruct (file_name_ends _ ".fp" eq_refl H2) as [x Hx].
    rewrite Hx in H3, Hb. rewrite slen_append in H3. cbn in H3.
    destruct x as [|x0 [|x1 x]]; cbn in H3; try lia; discriminate Hb.
  - destruct (length_wraps inputPath "" ".sksl") eqn:H; [| reflexivity].
    exfalso. apply length_wraps_iff in H. destruct H as (_ & H2 & H3).
    destruct (file_name_ends _ ".sksl" eq_refl H2) as [x Hx].
    rewrite Hx, slen_append in H3. cbn in H3. lia.
Qed.
